(** * Steam-Achievement-Process-Miner: the event-log filters and the level
    partitioner, embedded from [Filters.py], [Utils.py], [Analysis.py] and
    [Models/Game.py]. *)

From stdpp Require Import base option list strings gmap sets sorting.
From Stdlib Require Import ZArith Lia QArith Ascii.

Local Open Scope string_scope.
Local Open Scope list_scope.
Local Open Scope nat_scope.

(** ** Python exceptions

    The filters raise only through a failed subscript: [IndexError] on a
    list, [KeyError] on a dict.  A computation either returns or raises. *)

Inductive exn : Set := IndexError | KeyError.

Inductive result (A : Type) : Type :=
| Ok (a : A)
| Raise (e : exn).

Arguments Ok {A} a.
Arguments Raise {A} e.

#[global] Instance exn_eq_dec : EqDecision exn.
Proof. solve_decision. Defined.

#[global] Instance result_eq_dec {A} `{EqDecision A} : EqDecision (result A).
Proof. solve_decision. Defined.

Definition bind {A B} (r : result A) (k : A → result B) : result B :=
  match r with
  | Ok a => k a
  | Raise e => Raise e
  end.

Notation "x ←! r ; k" := (bind r (λ x, k))
  (at level 100, r at next level, right associativity).

(** [for ... in l] whose body threads the loop state and may raise. *)
Fixpoint for_each {A S} (body : S → A → result S) (l : list A) (s : S)
  : result S :=
  match l with
  | [] => Ok s
  | x :: l' => s' ←! body s x; for_each body l' s'
  end.

(** [list[i]] for a non-negative [i]. *)
Definition index {A} (l : list A) (i : nat) : result A :=
  match l !! i with
  | Some x => Ok x
  | None => Raise IndexError
  end.

(** [d[k]] on a dict. *)
Definition getitem {V} (d : gmap string V) (k : string) : result V :=
  match d !! k with
  | Some v => Ok v
  | None => Raise KeyError
  end.

(** [e[key]] on an attribute that may be absent. *)
Definition attr {A} (o : option A) : result A :=
  match o with
  | Some a => Ok a
  | None => Raise KeyError
  end.

(** ** Models/Game.py *)

Inductive Game : Set :=
| GRIS | HADES | PER_ASPERA | BLACK_MIRROR
| TIS_100 | FRIDAY_THE_13TH | OXYGEN_NOT_INCLUDED | WITCHER_3.

Definition id (self : Game) : Z :=
  match self with
  | GRIS => 683320
  | HADES => 1145360
  | PER_ASPERA => 803050
  | BLACK_MIRROR => 581300
  | TIS_100 => 370360
  | FRIDAY_THE_13TH => 438740
  | OXYGEN_NOT_INCLUDED => 457140
  | WITCHER_3 => 292030
  end%Z.

Definition end_achievement (self : Game) : string :=
  match self with
  | GRIS => "The End"
  | HADES => "The Family Secret"
  | PER_ASPERA => "Terraformer V"
  | BLACK_MIRROR => "Chapter V completed"
  | TIS_100 => "100_PERCENT_V1"
  | WITCHER_3 => "Passed the Trial"
  | OXYGEN_NOT_INCLUDED => "Home Sweet Home"
  | FRIDAY_THE_13TH => EmptyString
  end.

Definition main_achievements (self : Game) : list string :=
  match self with
  | GRIS => ["Red"; "Green"; "Blue"; "Yellow"; "The End"]
  | HADES => ["Escaped Tartarus"; "Escaped Asphodel"; "Escaped Elysium";
              "Is There No Escape?"; "The Family Secret"]
  | PER_ASPERA => ["Terraformer I"; "Terraformer II"; "Terraformer III";
                   "Terraformer IV"; "Terraformer V"]
  | BLACK_MIRROR => ["Chapter I completed"; "Chapter II completed";
                     "Chapter III completed"; "Chapter IV completed";
                     "Chapter V completed"]
  | WITCHER_3 => ["Lilac and Gooseberries"; "Family Counselor";
                  "A Friend in Need"; "Necromancer"; "Something More";
                  "Xenonaut"; "The King is Dead"; "Passed the Trial"]
  | TIS_100 | FRIDAY_THE_13TH | OXYGEN_NOT_INCLUDED => []
  end.

(** ** The event log (pm4py's [Event], [Trace], [EventLog], [EventStream])

    An event of a trace is a dict with the keys ['concept:name'] (the
    activity) and ['time:timestamp'] (an instant, here seconds as [Z]).
    A trace carries its events and its attributes, of which only
    ['concept:name'], the case id, is ever read; [Trace()] has none.
    An event of a stream carries the case id of its trace as
    ['case:concept:name'] when the trace has one. *)

Record Event : Set := mkEvent {
  concept_name : string;
  time_timestamp : Z
}.

Record Trace : Set := mkTrace {
  attributes : option string;
  events : list Event
}.

Abbreviation EventLog := (list Trace).

Record StreamEvent : Set := mkStreamEvent {
  case_concept_name : option string;
  event : Event
}.

Abbreviation EventStream := (list StreamEvent).

#[global] Instance Event_eq_dec : EqDecision Event.
Proof. solve_decision. Defined.

#[global] Instance Trace_eq_dec : EqDecision Trace.
Proof. solve_decision. Defined.

#[global] Instance StreamEvent_eq_dec : EqDecision StreamEvent.
Proof. solve_decision. Defined.

(** Player statistics as loaded from [<game>_player_stats.json]; the file
    is a JSON object, read in its key order. *)
Record PlayerStats : Set := mkPlayerStats {
  playtime : Z;
  left_positive_review : bool;
  review : string;
  collected_all : bool
}.

(** One entry of the token-replay result. *)
Record ReplayedTrace : Set := mkReplayedTrace {
  trace_is_fit : bool
}.

(** ** Utils.py *)

(** Modelled from the spec: the equality of pm4py's [Trace], which is not
    in the repository.  Two traces are equal when their case id and their
    ordered events, activity and timestamp, are (section 3); [trace in
    log] scans the log for an equal trace. *)
Definition contains (log : EventLog) (trace : Trace) : bool :=
  bool_decide (trace ∈ log).

Definition log_difference (log_a log_b : EventLog) : EventLog :=
  foldl (λ filtered_log trace,
           if negb (contains log_b trace)
           then filtered_log ++ [trace]
           else filtered_log)
        [] log_a.

(** ** Filters.py: the cheat detector *)

Definition timestamps_of (trace : Trace) : gset Z :=
  foldl (λ timestamps ev, timestamps ∪ {[time_timestamp ev]})
        ∅ (events trace).

Definition identical_timestamps (trace : Trace) : bool :=
  bool_decide (size (timestamps_of trace) = 1)
  && negb (bool_decide (length (events trace) = 1)).

Definition filter_cheating_players (event_log : EventLog)
    (keep_cheating : bool) : EventLog :=
  foldl (λ filtered_log trace,
           if Bool.eqb (identical_timestamps trace) keep_cheating
           then filtered_log ++ [trace]
           else filtered_log)
        [] event_log.

(** ** Filters.py: the sequence validator *)

(** The inner loop of [filter_incorrect_traces] on the rest of a trace:
    the result is the final [discard_trace].  [game.main_achievements[count]]
    is evaluated before the timestamp test, and raises when [count] has
    reached the length of the list. *)
Fixpoint scan_main_achievements (mains : list string) (count : nat)
    (timestamps : gset Z) (trace : list Event) : result bool :=
  match trace with
  | [] => Ok false
  | achievement :: rest =>
      if bool_decide (concept_name achievement ∈ mains) then
        let name := concept_name achievement in
        let timestamp := time_timestamp achievement in
        expected ←! index mains count;
        if negb (String.eqb name expected)
           || bool_decide (timestamp ∈ timestamps)
        then Ok true
        else scan_main_achievements mains (count + 1)
               (timestamps ∪ {[timestamp]}) rest
      else scan_main_achievements mains count timestamps rest
  end.

Definition filter_incorrect_traces (event_log : EventLog) (game : Game)
  : result EventLog :=
  for_each (λ filtered_log trace,
      discard_trace ←!
        scan_main_achievements (main_achievements game) 0 ∅ (events trace);
      if negb discard_trace
      then Ok (filtered_log ++ [trace])
      else Ok filtered_log)
    event_log [].

(** ** Filters.py: the fitness-based filter *)

(** The body of the loop over [range(len(event_log))]. *)
Definition fitness_body (event_log : EventLog)
    (replayed_traces : list ReplayedTrace)
    (filtered_log : EventLog) (i : nat) : result EventLog :=
  replayed ←! index replayed_traces i;
  if trace_is_fit replayed
  then new_trace ←! index event_log i; Ok (filtered_log ++ [new_trace])
  else Ok filtered_log.

Definition filter_log_by_trace_fitness (event_log : EventLog)
    (replayed_traces : list ReplayedTrace) : result EventLog :=
  for_each (fitness_body event_log replayed_traces)
    (seq 0 (length event_log)) [].

(** ** Filters.py: the review-sentiment filter *)

(** A dict whose order of keys is observable ([items()], [json.dump]):
    an association list with one entry per key. *)
Abbreviation dict V := (list (string * V)).

Fixpoint dict_get {V} (d : dict V) (k : string) : result V :=
  match d with
  | [] => Raise KeyError
  | (k', v) :: d' => if String.eqb k' k then Ok v else dict_get d' k
  end.

Fixpoint dict_set {V} (d : dict V) (k : string) (v : V) : dict V :=
  match d with
  | [] => [(k, v)]
  | (k', v') :: d' =>
      if String.eqb k' k then (k', v) :: d' else (k', v') :: dict_set d' k v
  end.

(** [player_stats] is the content of [Logs/<game>_player_stats.json]. *)
Definition filter_players_by_reviews (event_log : EventLog)
    (player_stats : dict PlayerStats) (keep_positive : bool)
  : result EventLog :=
  for_each (λ filtered_log trace,
      case_id ←! attr (attributes trace);
      stats ←! dict_get player_stats case_id;
      if Bool.eqb (left_positive_review stats) keep_positive
      then Ok (filtered_log ++ [trace])
      else Ok filtered_log)
    event_log [].

(** ** Filters.py: the achievement-window filter *)

Definition level_markers : list string :=
  ["Terraformer IV"; "Off The Hook"; "We are immortal!";
   "Doom Importer"; "Magnetic Personality"; "Terraformer V"].

(** The inner loop of [filter_achievements_by_level] on the rest of a
    trace, from the current [add] and [new_trace]. *)
Fixpoint scan_level (start_achievement end_achievement : string)
    (add : bool) (new_trace : list Event) (trace : list Event)
  : list Event :=
  match trace with
  | [] => new_trace
  | achievement :: rest =>
      let add :=
        if String.eqb (concept_name achievement) start_achievement
        then true else add in
      let new_trace :=
        if add && bool_decide (concept_name achievement ∈ level_markers)
        then new_trace ++ [achievement] else new_trace in
      if String.eqb (concept_name achievement) end_achievement
      then new_trace
      else scan_level start_achievement end_achievement add new_trace rest
  end.

(** [new_trace = Trace()] has no attributes; the csv dump of the result is
    an output only. *)
Definition filter_achievements_by_level (event_log : EventLog)
    (start_achievement end_achievement : string) : EventLog :=
  foldl (λ new_log trace,
           new_log ++ [mkTrace None
                         (scan_level start_achievement end_achievement
                            false [] (events trace))])
        [] event_log.

(** ** The pm4py primitives the filters call

    pm4py is a library, not part of the repository; its functions are
    given here by what the specification says of them. *)

(** Whether a trace has an event whose activity is among [values]. *)
Definition has_activity (values : list string) (trace : Trace) : bool :=
  existsb (λ ev, bool_decide (concept_name ev ∈ values)) (events trace).

(** Modelled from the spec: pm4py's [attributes_filter.apply], which is
    not in the repository.  It keeps the traces that contain
    ([positive]) or do not contain (not [positive]) at least one event
    whose activity is among [values] (sections 4.3 and 4.11). *)
Definition attributes_filter_apply (log : EventLog) (values : list string)
    (positive : bool) : EventLog :=
  filter (λ trace, has_activity values trace = positive) log.

(** Modelled from the spec: pm4py's [attributes_filter.apply_events],
    which is not in the repository.  It works on events: with [positive]
    it keeps the events whose activity is among [values], without it
    drops them; a trace left without events stays, empty (section 4.2). *)
Definition attributes_filter_apply_events (log : EventLog)
    (values : list string) (positive : bool) : EventLog :=
  (λ trace,
     mkTrace (attributes trace)
       (filter (λ ev, bool_decide (concept_name ev ∈ values) = positive)
          (events trace))) <$> log.

(** Modelled from the spec: pm4py's
    [timestamp_filter.filter_traces_intersecting], which is not in the
    repository: the traces with an event in the half-open interval from
    [dt1] to [dt2] (section 4.6). *)
Definition filter_traces_intersecting (log : EventLog) (dt1 dt2 : Z)
  : EventLog :=
  filter (λ trace,
            Exists (λ ev, (dt1 ≤ time_timestamp ev < dt2)%Z) (events trace))
         log.

(** Modelled from the spec: pm4py's [log_converter.apply] with
    [TO_EVENT_STREAM], which is not in the repository: the events of all
    traces, in log order, each with the case id of its trace
    (section 3). *)
Definition to_event_stream (log : EventLog) : EventStream :=
  trace ← log; mkStreamEvent (attributes trace) <$> events trace.

(** The event [ev] of case [glue] joins the trace of that case, or opens
    one at the end. *)
Fixpoint append_to_case (traces : EventLog) (glue : string) (ev : Event)
  : EventLog :=
  match traces with
  | [] => [mkTrace (Some glue) [ev]]
  | trace :: traces' =>
      if bool_decide (attributes trace = Some glue)
      then mkTrace (attributes trace) (events trace ++ [ev]) :: traces'
      else trace :: append_to_case traces' glue ev
  end.

Definition to_event_log_body (traces : EventLog) (x : StreamEvent)
  : result EventLog :=
  glue ←! attr (case_concept_name x);
  Ok (append_to_case traces glue (event x)).

(** Modelled from the spec: pm4py's [log_converter.apply] from a stream
    back to a log, which is not in the repository: the events are
    grouped by case id into traces, a trace per case id in the order the
    case ids first occur (sections 3 and 6); reading the case id of a
    stream event that has none is a key error. *)
Definition to_event_log (stream : EventStream) : result EventLog :=
  for_each to_event_log_body stream [].

(** ** Filters.py: the filters built on pm4py *)

(** [common_achievements] is the content of
    [Logs/<game>_common_achievements.json]. *)
Definition filter_events_by_common_achievements (event_log : EventLog)
    (common_achievements : list string) : EventLog :=
  attributes_filter_apply_events event_log common_achievements true.

Definition filter_players_by_game_completion (event_log : EventLog)
    (game : Game) (finished : bool) : EventLog :=
  attributes_filter_apply event_log [end_achievement game] finished.

Definition filter_main_achievements (event_log : EventLog) (game : Game)
  : EventLog :=
  attributes_filter_apply_events event_log (main_achievements game) true.

(** ['1970-01-01 00:00:00'] is instant 0; the default [start_date],
    ['2008-01-01 00:00:00'], is instant 1199145600. *)
Definition first_possible_date : Z := 0.
Definition default_start_date : Z := 1199145600.

Definition filter_achievements_by_date (event_log : EventLog)
    (start_date : Z) : EventLog :=
  let incorrect_log :=
    filter_traces_intersecting event_log first_possible_date start_date in
  log_difference event_log incorrect_log.

(** ** Filters.py: the first-playthrough truncator *)

(** The first loop: [end_timestamps] after the whole stream. *)
Definition record_end_timestamps (game : Game) (stream : EventStream)
  : result (gmap string Z) :=
  for_each (λ end_timestamps trace,
      if String.eqb (concept_name (event trace)) (end_achievement game)
      then
        case_id ←! attr (case_concept_name trace);
        Ok (<[case_id := time_timestamp (event trace)]> end_timestamps)
      else Ok end_timestamps)
    stream (∅ : gmap string Z).

(** [list(filter(f, l))] for an [f] that may raise. *)
Fixpoint filter_raising {A} (f : A → result bool) (l : list A)
  : result (list A) :=
  match l with
  | [] => Ok []
  | x :: l' =>
      keep ←! f x;
      kept ←! filter_raising f l';
      Ok (if keep then x :: kept else kept)
  end.

(** The lambda of the second pass. *)
Definition before_end (end_timestamps : gmap string Z) (x : StreamEvent)
  : result bool :=
  case_id ←! attr (case_concept_name x);
  end_timestamp ←! getitem end_timestamps case_id;
  Ok (bool_decide (time_timestamp (event x) ≤ end_timestamp)%Z).

Definition filter_achievements_by_first_playthrough (event_log : EventLog)
    (game : Game) : result EventLog :=
  let stream := to_event_stream event_log in
  end_timestamps ←! record_end_timestamps game stream;
  stream ←! filter_raising (before_end end_timestamps) stream;
  to_event_log stream.

(** ** Utils.py: case ids *)

Definition get_case_ids (event_log : EventLog) : result (gset string) :=
  let stream := to_event_stream event_log in
  for_each (λ case_ids trace,
      case_id ←! attr (case_concept_name trace);
      Ok (case_ids ∪ {[case_id]}))
    stream (∅ : gset string).

(** ** Analysis.py: the level partitioner *)

(** [negative_reviews_percentage] is a float in the source,
    [round(negative / reviewed * 100, 2)] or [0] when nobody reviewed;
    the record keeps the two counts it is computed from. *)
Record LevelInfo : Set := mkLevelInfo {
  level_num_players : nat;
  total_num_players : nat;
  negative_reviews_percentage : nat * nat;
  reviews : list PlayerStats
}.

(** One round of the loop, on the state [(players_level_endings,
    filtered_log)]. *)
Definition level_round (mains : list string)
    (reviews : dict PlayerStats) (unfinished_log_length : nat)
    (state : dict LevelInfo * EventLog) (i : nat)
  : result (dict LevelInfo * EventLog) :=
  let '(players_level_endings, filtered_log) := state in
  next ←! index mains (i + 1);
  let level_log := attributes_filter_apply filtered_log [next] false in
  level_case_ids ←! get_case_ids level_log;
  let of_level :=
    filter (λ r : string * PlayerStats, r.1 ∈ level_case_ids) reviews in
  let level_reviews := snd <$> of_level in
  let review_recommendations :=
    (λ r : string * PlayerStats, left_positive_review r.2) <$> of_level in
  let level_info :=
    mkLevelInfo (length level_log) unfinished_log_length
      (length (filter (λ r, r = false) review_recommendations),
       length review_recommendations)
      level_reviews in
  current ←! index mains i;
  Ok (dict_set players_level_endings current level_info,
      log_difference filtered_log level_log).

(** The function writes [players_level_endings] to a json file; here it
    returns it.  [reviews] is the content of
    [Logs/<game>_player_stats.json]. *)
Definition divide_unfinished_players_by_levels (event_log : EventLog)
    (game : Game) (reviews : dict PlayerStats) : result (dict LevelInfo) :=
  let filtered_log := filter_players_by_game_completion event_log game false in
  let filtered_log :=
    attributes_filter_apply filtered_log (main_achievements game) true in
  let unfinished_log_length := length filtered_log in
  final ←!
    for_each (level_round (main_achievements game) reviews
                unfinished_log_length)
      (seq 0 (length (main_achievements game) - 1))
      ([], filtered_log);
  Ok final.1.

(** ** SteamScraper.py

    The two requests that fill the schema of a game and its list of
    common achievements.  A response is given parsed; [None] stands for
    one that is not [ok]. *)

(** [name.replace(',', '')]. *)
Fixpoint remove_commas (name : string) : string :=
  match name with
  | EmptyString => EmptyString
  | String c rest =>
      if Ascii.eqb c ","%char then remove_commas rest
      else String c (remove_commas rest)
  end.

(** An achievement of [GetSchemaForGame]: its ['name'] and its
    ['displayName']. *)
Record SchemaAchievement : Set := mkSchemaAchievement {
  schema_name : string;
  displayName : string
}.

(** [achievements] is [self.achievements] before the call, the result
    is [self.achievements] after it. *)
Definition _get_game_achievements (achievements : gmap string string)
    (response : option (list SchemaAchievement)) : gmap string string :=
  match response with
  | Some schema =>
      foldl (λ achievements achievement,
               <[schema_name achievement :=
                   remove_commas (displayName achievement)]> achievements)
            achievements schema
  | None => achievements
  end.

(** An achievement of [GetGlobalAchievementPercentagesForApp]: its
    ['name'] and its ['percent'], a number. *)
Record AchievementPercentage : Set := mkAchievementPercentage {
  percentage_name : string;
  percent : Q
}.

(** The first loop of [_get_common_achievements] on the rest of the
    response, from the current [count] and [self.common_achievements]. *)
Fixpoint take_common (achievements : gmap string string) (count : nat)
    (common_achievements : list string)
    (percentages : list AchievementPercentage) : result (list string) :=
  match percentages with
  | [] => Ok common_achievements
  | achievement :: rest =>
      let count := count + 1 in
      name ←! getitem achievements (percentage_name achievement);
      let common_achievements := common_achievements ++ [name] in
      if (15 <=? count) || (if Qlt_le_dec (percent achievement) 20
                            then true else false)
      then Ok common_achievements
      else take_common achievements count common_achievements rest
  end.

(** The second loop: the main achievements that are not yet in the
    list. *)
Definition add_main_achievements (common_achievements : list string)
    (mains : list string) : list string :=
  foldl (λ common_achievements main_achievement,
           if negb (bool_decide (main_achievement ∈ common_achievements))
           then common_achievements ++ [main_achievement]
           else common_achievements)
        common_achievements mains.

(** The result is [self.common_achievements] after the call, which the
    method writes to [Logs/<game>_common_achievements.json]. *)
Definition _get_common_achievements (game : Game)
    (achievements : gmap string string) (common_achievements : list string)
    (response : option (list AchievementPercentage))
  : result (list string) :=
  match response with
  | Some percentages =>
      common_achievements ←!
        take_common achievements 0 common_achievements percentages;
      Ok (add_main_achievements common_achievements
            (main_achievements game))
  | None => Ok common_achievements
  end.

(** ** Analysis.py: the chain of [bottleneck_analysis]

    What [bottleneck_analysis] does with the log of a game between
    [import_csv] and [find_bottlenecks]: the sequence validator, the
    restriction to the main achievements, the level partitioner. *)
Definition bottleneck_levels (log : EventLog) (game : Game)
    (reviews : dict PlayerStats) : result (dict LevelInfo) :=
  log ←! filter_incorrect_traces log game;
  let log := filter_main_achievements log game in
  divide_unfinished_players_by_levels log game reviews.

(** * The vocabulary of the properties

    What the specification says of each filter, as definitions of their
    own, and the logs the properties are tried on. *)

(** The loop [for x in l: if g(x): acc.append(x)], the shape of the
    filters that decide on whole traces. *)
Definition keep_loop {A} (g : A → result bool) (l acc : list A)
  : result (list A) :=
  for_each (λ acc x, b ←! g x; if b then Ok (acc ++ [x]) else Ok acc) l acc.

(** ** The cheat detector *)

(** The cheating flag in the words of the specification: the set of the
    timestamps of the trace has one element and the trace more than one
    event. *)
Definition cheating (trace : Trace) : Prop :=
  size (list_to_set (time_timestamp <$> events trace) : gset Z) = 1
  ∧ 1 < length (events trace).

#[global] Instance cheating_dec trace : Decision (cheating trace).
Proof. unfold cheating. apply _. Defined.

(** ** The sequence validator *)

(** The events of a trace that the validator looks at. *)
Definition considered (mains : list string) (trace : list Event)
  : list Event :=
  filter (λ ev, concept_name ev ∈ mains) trace.

(** The condition of the specification on the considered events [c]: the
    k-th has the k-th main achievement as its activity and a timestamp
    that none of the earlier ones has. *)
Definition in_order (mains : list string) (c : list Event) : Prop :=
  ∀ k ev, c !! k = Some ev →
    mains !! k = Some (concept_name ev)
    ∧ ∀ j ev', j < k → c !! j = Some ev' →
        time_timestamp ev' ≠ time_timestamp ev.

(** What [filter_incorrect_traces] keeps, in the words of the
    specification. *)
Definition valid_trace (game : Game) (trace : Trace) : Prop :=
  in_order (main_achievements game)
    (considered (main_achievements game) (events trace)).

(** A player who went through Gris in order, and one whose log shows the
    first achievement again after the last. *)
Definition gris_in_order : Trace :=
  mkTrace (Some "p1") [mkEvent "Red" 1; mkEvent "Green" 2].

Definition gris_repeated : Trace :=
  mkTrace (Some "p2")
    [mkEvent "Red" 1; mkEvent "Green" 2; mkEvent "Blue" 3;
     mkEvent "Yellow" 4; mkEvent "The End" 5; mkEvent "Red" 6].

(** ** The fitness-based filter *)

(** The traces at the positions whose replay result is fit. *)
Definition fit_traces (event_log : EventLog)
    (replayed_traces : list ReplayedTrace) : EventLog :=
  (filter (λ p : Trace * ReplayedTrace, trace_is_fit p.2 = true)
     (zip event_log replayed_traces)).*1.

(** ** The achievement-window filter *)

(** The included window in the words of the specification: scanning stops
    with the first end marker, and events count from the first start
    marker on. *)
Fixpoint through_end (end_achievement : string) (trace : list Event)
  : list Event :=
  match trace with
  | [] => []
  | ev :: rest =>
      if String.eqb (concept_name ev) end_achievement then [ev]
      else ev :: through_end end_achievement rest
  end.

Fixpoint from_start (start_achievement : string) (trace : list Event)
  : list Event :=
  match trace with
  | [] => []
  | ev :: rest =>
      if String.eqb (concept_name ev) start_achievement then ev :: rest
      else from_start start_achievement rest
  end.

Definition included_window (start_achievement end_achievement : string)
    (trace : list Event) : list Event :=
  from_start start_achievement (through_end end_achievement trace).

(** The events of the window that are level markers. *)
Definition level_events (start_achievement end_achievement : string)
    (trace : list Event) : list Event :=
  filter (λ ev, concept_name ev ∈ level_markers)
    (included_window start_achievement end_achievement trace).

(** ** The first-playthrough truncator *)

Definition has_case (x : StreamEvent) : Prop :=
  is_Some (case_concept_name x).

Definition is_end (game : Game) (ev : Event) : Prop :=
  concept_name ev = end_achievement game.

#[global] Instance is_end_dec game ev : Decision (is_end game ev).
Proof. unfold is_end. apply _. Defined.

(** The timestamp of the last end-achievement event of case [c] in a
    stream. *)
Definition last_end (game : Game) (c : string) (stream : EventStream)
  : option Z :=
  (λ x, time_timestamp (event x))
  <$> last (filter (λ x, case_concept_name x = Some c ∧ is_end game (event x))
              stream).

(** The timestamp of the last end-achievement event of a trace. *)
Definition cutoff (game : Game) (trace : Trace) : option Z :=
  time_timestamp <$> last (filter (is_end game) (events trace)).

(** A trace cut after its last end-achievement event. *)
Definition first_playthrough (game : Game) (trace : Trace) : Trace :=
  mkTrace (attributes trace)
    (filter (λ ev,
               from_option (λ te, bool_decide (time_timestamp ev ≤ te)%Z)
                 false (cutoff game trace) = true)
       (events trace)).

(** A trace ready for the truncator: it has a case id and contains the
    end achievement. *)
Definition finished (game : Game) (trace : Trace) : Prop :=
  is_Some (attributes trace) ∧ Exists (is_end game) (events trace).

(** A player with two end-achievement events, an achievement between
    them and one after the second. *)
Definition gris_finished_twice : Trace :=
  mkTrace (Some "p3")
    [mkEvent "Red" 1; mkEvent "The End" 5; mkEvent "Blue" 7;
     mkEvent "The End" 9; mkEvent "Yellow" 11].

(** ** The level partitioner *)

(** The sum of [level_num_players] over the recorded levels. *)
Definition players_attributed (players_level_endings : dict LevelInfo)
  : nat :=
  sum_list_with (λ kv, level_num_players kv.2) players_level_endings.

(** The unfinished, progress-only log the partitioner starts from. *)
Definition unfinished_log (event_log : EventLog) (game : Game) : EventLog :=
  attributes_filter_apply
    (filter_players_by_game_completion event_log game false)
    (main_achievements game) true.

(** Two players who stopped, after the first and after the second level,
    one who finished and one without any achievement. *)
Definition gris_players : EventLog :=
  [mkTrace (Some "p5") [mkEvent "Red" 1];
   mkTrace (Some "p6") [mkEvent "Red" 2; mkEvent "Green" 3];
   mkTrace (Some "p7")
     [mkEvent "Red" 1; mkEvent "Green" 2; mkEvent "Blue" 3;
      mkEvent "Yellow" 4; mkEvent "The End" 5];
   mkTrace (Some "p8") []].

(** ** The review-sentiment filter *)

(** The review flag the stats file has for the case of a trace, if the
    trace has a case id and the file an entry for it. *)
Definition review_of (player_stats : dict PlayerStats) (trace : Trace)
  : option bool :=
  match attributes trace with
  | Some case_id =>
      match dict_get player_stats case_id with
      | Ok stats => Some (left_positive_review stats)
      | Raise _ => None
      end
  | None => None
  end.

(** ** The fitness-based filter and the difference *)

(** The traces at the positions whose replay result is not fit. *)
Definition unfit_traces (event_log : EventLog)
    (replayed_traces : list ReplayedTrace) : EventLog :=
  (filter (λ p : Trace * ReplayedTrace, trace_is_fit p.2 = false)
     (zip event_log replayed_traces)).*1.

(** ** The truncator on sorted traces *)

(** The events of a trace are in the order of their timestamps, as they
    are after [import_csv] has sorted the rows. *)
Definition by_time (trace : Trace) : Prop :=
  StronglySorted (λ a b, (time_timestamp a ≤ time_timestamp b)%Z)
    (events trace).

(** ** The levels of the partitioner *)

(** A trace has the main achievements at the indices 1 to [i]. *)
Definition reached (mains : list string) (i : nat) (trace : Trace) : Prop :=
  Forall (λ m, has_activity [m] trace = true) (take i (drop 1 mains)).

#[global] Instance reached_dec mains i trace :
  Decision (reached mains i trace).
Proof. unfold reached. apply _. Defined.

(** The traces of [log] that have the main achievements at the indices 1
    to [i] and lack [next], the one at index [i + 1]. *)
Definition level_players (mains : list string) (log : EventLog) (i : nat)
    (next : string) : EventLog :=
  filter (λ trace, has_activity [next] trace = false
                   ∧ reached mains i trace) log.

(** The entries of the stats file whose key is among [case_ids]. *)
Definition reviews_of (reviews : dict PlayerStats) (case_ids : gset string)
  : dict PlayerStats :=
  filter (λ r : string * PlayerStats, r.1 ∈ case_ids) reviews.

(** What a round records for a level log with the case ids
    [case_ids]. *)
Definition level_info_of (reviews : dict PlayerStats) (total : nat)
    (level_log : EventLog) (case_ids : gset string) : LevelInfo :=
  mkLevelInfo (length level_log) total
    (length (filter (λ r, r = false)
               ((λ r : string * PlayerStats, left_positive_review r.2)
                <$> reviews_of reviews case_ids)),
     length ((λ r : string * PlayerStats, left_positive_review r.2)
             <$> reviews_of reviews case_ids))
    (snd <$> reviews_of reviews case_ids).

(** ** The scraper *)

(** A name without comma, which a row of the csv log can hold as one
    field. *)
Definition comma_free (name : string) : Prop :=
  ","%char ∉ String.list_ascii_of_string name.

(** ** The chain of [bottleneck_analysis] *)

(** The sequence validator keeps the trace, and the trace has [i + 1]
    events with a main achievement: the player stopped after the main
    achievement at index [i]. *)
Definition stopped_after (game : Game) (i : nat) (trace : Trace) : Prop :=
  scan_main_achievements (main_achievements game) 0 ∅ (events trace)
  = Ok false
  ∧ length (considered (main_achievements game) (events trace)) = i + 1.

#[global] Instance stopped_after_dec game i trace :
  Decision (stopped_after game i trace).
Proof. unfold stopped_after. apply _. Defined.

(** ** Sample data *)

(** A stats file with the two players of the Gris scenario. *)
Definition reviewed_players : dict PlayerStats :=
  [("p1", mkPlayerStats 120 true "good" false);
   ("p2", mkPlayerStats 30 false "bad" false)].

(** A Per Aspera player whose trace goes through the fourth level. *)
Definition per_aspera_level : Trace :=
  mkTrace (Some "p9")
    [mkEvent "Terraformer III" 1; mkEvent "Terraformer IV" 2;
     mkEvent "Off The Hook" 3; mkEvent "Lucky Strike" 4;
     mkEvent "Terraformer V" 5; mkEvent "Doom Importer" 6].

(** A player who went on after the end achievement. *)
Definition gris_finished : Trace :=
  mkTrace (Some "p10")
    [mkEvent "Red" 1; mkEvent "Green" 2; mkEvent "The End" 5;
     mkEvent "Blue" 5; mkEvent "Yellow" 6].

(** A player with the second level but not the first, and one with the
    first level only. *)
Definition gris_skipped_first : EventLog :=
  [mkTrace (Some "q1") [mkEvent "Green" 4];
   mkTrace (Some "q2") [mkEvent "Red" 2]].

(** A schema and a percentage table as the two endpoints answer. *)
Definition gris_schema : gmap string string :=
  {["A1" := "Red"; "A2" := "Green"; "A3" := "Secret"]}.

Definition gris_percentages : list AchievementPercentage :=
  [mkAchievementPercentage "A1" (90 # 1);
   mkAchievementPercentage "A3" (39 # 2);
   mkAchievementPercentage "A2" (10 # 1)].

(** An imported log of Gris: a player with a side achievement, players
    who stopped at different levels, one with the levels out of order, one
    who finished and one without any achievement. *)
Definition gris_imported : EventLog :=
  [mkTrace (Some "p5") [mkEvent "Red" 1; mkEvent "Gardener" 2];
   mkTrace (Some "p6") [mkEvent "Red" 2; mkEvent "Green" 3];
   mkTrace (Some "p9") [mkEvent "Green" 1; mkEvent "Red" 2];
   mkTrace (Some "p7")
     [mkEvent "Red" 1; mkEvent "Green" 2; mkEvent "Blue" 3;
      mkEvent "Yellow" 4; mkEvent "The End" 5];
   mkTrace (Some "p8") []].

(** * Properties *)

(** ** Loops that append the elements they keep *)

Section append_loops.
Context {A : Type}.

Lemma foldl_append_if (b : A → bool) (l acc : list A) :
  foldl (λ acc x, if b x then acc ++ [x] else acc) acc l
  = acc ++ filter (λ x, b x = true) l.
Proof.
  revert acc. induction l as [|x l IH]; intros acc; simpl.
  - by rewrite app_nil_r.
  - rewrite IH, filter_cons. case_decide as Hb; rewrite Hb || idtac.
    + by rewrite <- app_assoc.
    + by destruct (b x).
Qed.

Lemma filter_ext_iff (P Q : A → Prop) `{!∀ x, Decision (P x)}
    `{!∀ x, Decision (Q x)} (l : list A) :
  (∀ x, x ∈ l → P x ↔ Q x) → filter P l = filter Q l.
Proof.
  induction l as [|x l IH]; intros Hext; [done|].
  rewrite !filter_cons.
  rewrite IH by (intros y Hy; apply Hext; by right).
  destruct (decide (P x)) as [HP|HP], (decide (Q x)) as [HQ|HQ]; try done.
  - destruct HQ. apply Hext; [left|done].
  - destruct HP. apply Hext; [left|done].
Qed.

Lemma filter_all (P : A → Prop) `{!∀ x, Decision (P x)} (l : list A) :
  Forall P l → filter P l = l.
Proof.
  induction 1 as [|x l HP _ IH]; [done|].
  by rewrite filter_cons, decide_True, IH.
Qed.

Lemma filter_none (P : A → Prop) `{!∀ x, Decision (P x)} (l : list A) :
  Forall (λ x, ¬ P x) l → filter P l = [].
Proof.
  induction 1 as [|x l HP _ IH]; [done|].
  by rewrite filter_cons, decide_False, IH.
Qed.

End append_loops.

(** ** Log difference *)

Lemma log_difference_filter (log_a log_b : EventLog) :
  log_difference log_a log_b = filter (λ trace, trace ∉ log_b) log_a.
Proof.
  unfold log_difference.
  rewrite (foldl_append_if (λ trace, negb (contains log_b trace))).
  simpl. apply filter_ext_iff. intros t _. unfold contains.
  rewrite negb_true_iff, bool_decide_eq_false. done.
Qed.

Lemma log_difference_sublist (log_a log_b : EventLog) :
  log_difference log_a log_b `sublist_of` log_a.
Proof. rewrite log_difference_filter. apply sublist_filter. Qed.

(** C3: [log_difference A B] is [A] restricted, in [A]'s order, to the
    traces that have no equal trace in [B], traces being equal when their
    case id and their sequences of events (activity and timestamp) are;
    [log_difference A A] is empty and [log_difference A []] is [A]. *)
Theorem log_difference_spec (A B : EventLog) :
  log_difference A B = filter (λ trace, Forall (λ other, trace ≠ other) B) A
  ∧ log_difference A B `sublist_of` A
  ∧ (∀ trace, trace ∈ log_difference A B ↔ trace ∈ A ∧ trace ∉ B)
  ∧ log_difference A A = []
  ∧ log_difference A [] = A.
Proof.
  split_and!.
  - rewrite log_difference_filter. apply filter_ext_iff.
    intros t _. rewrite Forall_forall. split.
    + intros Hn o Ho ->. done.
    + intros Hne Hin. by apply (Hne t).
  - apply log_difference_sublist.
  - intros t. rewrite log_difference_filter, list_elem_of_filter. tauto.
  - rewrite log_difference_filter. apply filter_none.
    apply Forall_forall. intros t Ht Hn. done.
  - rewrite log_difference_filter. apply filter_all.
    apply Forall_forall. intros t _. apply not_elem_of_nil.
Qed.

(** ** The cheat detector *)

Lemma foldl_timestamps (evs : list Event) (acc : gset Z) :
  foldl (λ timestamps ev, timestamps ∪ {[time_timestamp ev]}) acc evs
  = acc ∪ list_to_set (time_timestamp <$> evs).
Proof.
  revert acc. induction evs as [|e evs IH]; intros acc; simpl.
  - set_solver.
  - rewrite IH. set_solver.
Qed.

Lemma timestamps_of_list_to_set (trace : Trace) :
  timestamps_of trace = list_to_set (time_timestamp <$> events trace).
Proof. unfold timestamps_of. rewrite foldl_timestamps. set_solver. Qed.

Lemma identical_timestamps_cheating (trace : Trace) :
  identical_timestamps trace = true ↔ cheating trace.
Proof.
  unfold identical_timestamps, cheating.
  rewrite andb_true_iff, negb_true_iff, bool_decide_eq_true,
    bool_decide_eq_false, timestamps_of_list_to_set.
  split; intros [Hsz Hlen]; split; try done; try lia.
  destruct (events trace) as [|e [|e' evs]]; simpl in *; try lia.
  vm_compute in Hsz. lia.
Qed.

Lemma filter_cheating_players_filter (event_log : EventLog) (c : bool) :
  filter_cheating_players event_log c
  = filter (λ trace, bool_decide (cheating trace) = c) event_log.
Proof.
  unfold filter_cheating_players.
  rewrite (foldl_append_if
             (λ trace, Bool.eqb (identical_timestamps trace) c)).
  simpl. apply filter_ext_iff. intros t _.
  rewrite Bool.eqb_true_iff.
  pose proof (identical_timestamps_cheating t) as H.
  destruct (identical_timestamps t), c; split; intros Heq; try done.
  - by apply bool_decide_eq_true, H.
  - apply bool_decide_eq_false in Heq. destruct Heq. by apply H.
  - apply bool_decide_eq_true, H in Heq. done.
  - apply bool_decide_eq_false. intros Hc. apply H in Hc. done.
Qed.

(** C2: [filter_cheating_players L c] keeps, in order, exactly the traces
    whose cheating flag is [c], a trace being cheating when its set of
    distinct timestamps has one element and it has more than one event;
    the results for [true] and [false] share no trace, every trace of [L]
    is in one of them, and together they are [L] up to order. *)
Theorem filter_cheating_players_partition (L : EventLog) (c : bool) :
  filter_cheating_players L c
  = filter (λ trace, bool_decide (cheating trace) = c) L
  ∧ (∀ trace, trace ∈ filter_cheating_players L c
              ↔ trace ∈ L ∧ (cheating trace ↔ c = true))
  ∧ (∀ trace, ¬ (trace ∈ filter_cheating_players L true
                 ∧ trace ∈ filter_cheating_players L false))
  ∧ (∀ trace, trace ∈ L ↔ trace ∈ filter_cheating_players L true
                          ∨ trace ∈ filter_cheating_players L false)
  ∧ filter_cheating_players L true ++ filter_cheating_players L false ≡ₚ L.
Proof.
  rewrite !filter_cheating_players_filter. split_and!.
  - done.
  - intros t. rewrite list_elem_of_filter.
    destruct c; [rewrite bool_decide_eq_true|rewrite bool_decide_eq_false];
      naive_solver.
  - intros t. rewrite !list_elem_of_filter.
    intros [[H1 _] [H2 _]]. congruence.
  - intros t. rewrite !list_elem_of_filter.
    destruct (bool_decide (cheating t)); split; try tauto; auto.
  - rewrite <- (filter_app_complement
                  (λ trace, bool_decide (cheating trace) = true) L) at 3.
    apply Permutation_app; [done|].
    erewrite filter_ext_iff; [done|].
    intros t _. simpl. destruct (bool_decide (cheating t)); split; congruence.
Qed.

(** ** Raising loops that append the elements they keep *)

Section keep_loops.
Context {A : Type}.

Lemma for_each_ext {S} (f g : S → A → result S) (l : list A) (s : S) :
  (∀ s x, x ∈ l → f s x = g s x) → for_each f l s = for_each g l s.
Proof.
  revert s. induction l as [|x l IH]; intros s Hfg; [done|].
  simpl. rewrite Hfg by left. destruct (g s x) as [s'|e]; [|done].
  simpl. apply IH. intros s0 y Hy. apply Hfg. by right.
Qed.

Lemma keep_loop_ok (g : A → result bool) (l acc : list A) :
  Forall (λ x, ∃ b, g x = Ok b) l →
  keep_loop g l acc = Ok (acc ++ filter (λ x, g x = Ok true) l).
Proof.
  unfold keep_loop. intros Hall. revert acc.
  induction Hall as [|x l [b Hb] _ IH]; intros acc; cbn [for_each].
  - by rewrite app_nil_r.
  - rewrite Hb, filter_cons. cbn [bind]. destruct b; cbn [bind]; rewrite IH.
    + rewrite decide_True by done. by rewrite <- app_assoc.
    + rewrite decide_False by congruence. done.
Qed.

Lemma keep_loop_returns (g : A → result bool) (l acc out : list A) :
  keep_loop g l acc = Ok out → Forall (λ x, ∃ b, g x = Ok b) l.
Proof.
  unfold keep_loop. revert acc.
  induction l as [|x l IH]; intros acc Hret; [constructor|].
  cbn [for_each] in Hret. destruct (g x) as [b|e] eqn:Hg; [|done].
  constructor; [by exists b|]. cbn [bind] in Hret.
  destruct b; cbn [bind] in Hret; eapply IH, Hret.
Qed.

Lemma keep_loop_raises (g : A → result bool) (l acc : list A) (e : exn) :
  (∀ x e', x ∈ l → g x = Raise e' → e' = e) →
  Exists (λ x, g x = Raise e) l →
  keep_loop g l acc = Raise e.
Proof.
  unfold keep_loop. intros Honly Hex. revert acc.
  induction l as [|x l IH]; intros acc; [by apply Exists_nil in Hex|].
  cbn [for_each]. destruct (g x) as [b|e'] eqn:Hg; cbn [bind].
  - apply Exists_cons in Hex as [Hx|Hex]; [congruence|].
    destruct b; cbn [bind]; apply IH; try done;
      intros y e' Hy; apply Honly; by right.
  - f_equal. eapply Honly; [left|done].
Qed.

End keep_loops.

(** ** The sequence validator *)

Lemma scan_main_achievements_considered mains count timestamps trace :
  scan_main_achievements mains count timestamps trace
  = scan_main_achievements mains count timestamps (considered mains trace).
Proof.
  revert count timestamps.
  induction trace as [|a rest IH]; intros count timestamps; [done|].
  unfold considered. rewrite filter_cons. simpl.
  destruct (decide (concept_name a ∈ mains)) as [Hin|Hin].
  - simpl. rewrite !bool_decide_eq_true_2 by done.
    destruct (index mains count) as [m|e]; [|done]. simpl.
    destruct (_ || _); [done|]. apply IH.
  - rewrite bool_decide_eq_false_2 by done. apply IH.
Qed.

Lemma scan_main_achievements_ok_false mains count timestamps c :
  Forall (λ ev, concept_name ev ∈ mains) c →
  (scan_main_achievements mains count timestamps c = Ok false
   ↔ ∀ k ev, c !! k = Some ev →
       mains !! (count + k) = Some (concept_name ev)
       ∧ (time_timestamp ev ∉ timestamps)
       ∧ ∀ j ev', j < k → c !! j = Some ev' →
           time_timestamp ev' ≠ time_timestamp ev).
Proof.
  intros Hc. revert count timestamps.
  induction Hc as [|a c Ha _ IH]; intros count timestamps.
  { simpl. split; [|done]. intros _ k ev Hk. done. }
  simpl. rewrite bool_decide_eq_true_2 by done. unfold index.
  destruct (mains !! count) as [m|] eqn:Hm; simpl.
  2:{ split; [done|]. intros Hall.
      destruct (Hall 0 a eq_refl) as [H0 _].
      rewrite Nat.add_0_r in H0. congruence. }
  destruct (String.eqb (concept_name a) m) eqn:Hname; simpl.
  2:{ split; [done|]. intros Hall.
      destruct (Hall 0 a eq_refl) as [H0 _].
      rewrite Nat.add_0_r in H0.
      apply String.eqb_neq in Hname. congruence. }
  apply String.eqb_eq in Hname. subst m.
  destruct (bool_decide (time_timestamp a ∈ timestamps)) eqn:Hts.
  { split; [done|]. intros Hall.
    destruct (Hall 0 a eq_refl) as (_ & H0 & _).
    apply bool_decide_eq_true in Hts. done. }
  apply bool_decide_eq_false in Hts.
  rewrite IH. split.
  - intros Hall [|k] ev Hk; simpl in Hk.
    + injection Hk as <-. rewrite Nat.add_0_r.
      split_and!; [done..|]. intros j ev' Hj. lia.
    + destruct (Hall k ev Hk) as (H1 & H2 & H3).
      split_and!.
      * by replace (count + S k) with (count + 1 + k) by lia.
      * set_solver.
      * intros [|j] ev' Hj Hev'; simpl in Hev'.
        -- injection Hev' as <-. set_solver.
        -- apply (H3 j); [lia|done].
  - intros Hall k ev Hk.
    destruct (Hall (S k) ev Hk) as (H1 & H2 & H3).
    split_and!.
    + by replace (count + 1 + k) with (count + S k) by lia.
    + intros [Hin|Heq%elem_of_singleton]%elem_of_union; [done|].
      apply (H3 0 a); [lia|done|by symmetry].
    + intros j ev' Hj Hev'. apply (H3 (S j)); [lia|done].
Qed.

Lemma scan_main_achievements_only_IndexError mains count timestamps trace e :
  scan_main_achievements mains count timestamps trace = Raise e →
  e = IndexError.
Proof.
  revert count timestamps.
  induction trace as [|a rest IH]; intros count timestamps; [done|].
  simpl. case_bool_decide; [|apply IH].
  unfold index. destruct (mains !! count); simpl; [|congruence].
  destruct (_ || _); [done|apply IH].
Qed.

Lemma scan_main_achievements_returns mains count timestamps c :
  count + length c ≤ length mains →
  ∃ discard_trace,
    scan_main_achievements mains count timestamps c = Ok discard_trace.
Proof.
  revert count timestamps.
  induction c as [|a c IH]; intros count timestamps Hlen; simpl in *.
  { by exists false. }
  case_bool_decide; [|apply IH; lia].
  unfold index. destruct (lookup_lt_is_Some_2 mains count) as [m ->]; [lia|].
  simpl. destruct (_ || _); [by exists true|]. apply IH. lia.
Qed.

Lemma scan_valid_trace (game : Game) (trace : Trace) :
  scan_main_achievements (main_achievements game) 0 ∅ (events trace)
  = Ok false ↔ valid_trace game trace.
Proof.
  rewrite scan_main_achievements_considered.
  rewrite scan_main_achievements_ok_false
    by (apply Forall_forall; intros ev [H _]%list_elem_of_filter; exact H).
  unfold valid_trace, in_order. split; intros Hall k ev Hk.
  - destruct (Hall k ev Hk) as (H1 & _ & H3). done.
  - destruct (Hall k ev Hk) as (H1 & H3). split_and!; [done| |done].
    apply not_elem_of_empty.
Qed.

Lemma filter_incorrect_traces_keep_loop (event_log : EventLog) (game : Game) :
  filter_incorrect_traces event_log game
  = keep_loop (λ trace,
        discard_trace ←!
          scan_main_achievements (main_achievements game) 0 ∅ (events trace);
        Ok (negb discard_trace))
      event_log [].
Proof.
  unfold filter_incorrect_traces, keep_loop. apply for_each_ext.
  intros acc t _. by destruct (scan_main_achievements _ _ _ _) as [[]|].
Qed.

Lemma filter_incorrect_traces_returns (event_log out : EventLog) game :
  filter_incorrect_traces event_log game = Ok out →
  out = filter (λ trace,
          scan_main_achievements (main_achievements game) 0 ∅ (events trace)
          = Ok false) event_log.
Proof.
  rewrite filter_incorrect_traces_keep_loop. intros Hret.
  pose proof (keep_loop_returns _ _ _ _ Hret) as Hall.
  rewrite (keep_loop_ok _ _ _ Hall) in Hret. injection Hret as <-.
  simpl. apply filter_ext_iff. intros t _.
  by destruct (scan_main_achievements _ _ _ _) as [[]|].
Qed.

Lemma filter_incorrect_traces_keeps (event_log out : EventLog) game :
  filter_incorrect_traces event_log game = Ok out →
  ∀ trace, trace ∈ out ↔ trace ∈ event_log ∧ valid_trace game trace.
Proof.
  intros ->%filter_incorrect_traces_returns t.
  rewrite list_elem_of_filter, scan_valid_trace. tauto.
Qed.

Lemma filter_incorrect_traces_total (event_log : EventLog) game :
  Forall (λ trace,
            length (considered (main_achievements game) (events trace))
            ≤ length (main_achievements game)) event_log →
  ∃ out, filter_incorrect_traces event_log game = Ok out.
Proof.
  intros Hall. rewrite filter_incorrect_traces_keep_loop.
  eexists. apply keep_loop_ok.
  eapply Forall_impl; [exact Hall|]. intros t Hlen. simpl in *.
  rewrite scan_main_achievements_considered.
  destruct (scan_main_achievements_returns (main_achievements game) 0 ∅
              (considered (main_achievements game) (events t))) as [d ->];
    [lia|]. by eexists.
Qed.

Lemma filter_incorrect_traces_raises (event_log : EventLog) game :
  Exists (λ trace,
            scan_main_achievements (main_achievements game) 0 ∅
              (events trace) = Raise IndexError) event_log →
  filter_incorrect_traces event_log game = Raise IndexError.
Proof.
  intros Hex. rewrite filter_incorrect_traces_keep_loop.
  apply keep_loop_raises.
  - intros t e _ Hr.
    destruct (scan_main_achievements _ _ _ _) as [d|e0] eqn:Hs; [done|].
    simpl in Hr. injection Hr as <-.
    by eapply scan_main_achievements_only_IndexError.
  - eapply Exists_impl; [exact Hex|]. intros t ->. done.
Qed.

(** C1, at a log on which the code departs from it: the first trace meets
    the condition of the claim and is to be kept, the second does not (its
    sixth main achievement has no sixth entry to equal) and is to be
    dropped; the code raises [IndexError] on
    [game.main_achievements[5]] and returns no log. *)
Theorem filter_incorrect_traces_repeated_achievement :
  valid_trace GRIS gris_in_order
  ∧ ¬ valid_trace GRIS gris_repeated
  ∧ filter_incorrect_traces [gris_in_order; gris_repeated] GRIS
    = Raise IndexError.
Proof.
  split_and!.
  - apply scan_valid_trace. by vm_compute.
  - intros Hv%scan_valid_trace. vm_compute in Hv. done.
  - by vm_compute.
Qed.

(** ** The fitness-based filter *)

Lemma for_each_app {A S} (body : S → A → result S) (l1 l2 : list A) (s : S) :
  for_each body (l1 ++ l2) s
  = (s' ←! for_each body l1 s; for_each body l2 s').
Proof.
  revert s. induction l1 as [|x l1 IH]; intros s; [done|].
  simpl. destruct (body s x); [apply IH|done].
Qed.

Lemma fitness_loop_prefix (event_log : EventLog)
    (replayed_traces : list ReplayedTrace) (n : nat) :
  n ≤ length event_log → n ≤ length replayed_traces →
  for_each (fitness_body event_log replayed_traces) (seq 0 n) []
  = Ok (fit_traces (take n event_log) (take n replayed_traces)).
Proof.
  induction n as [|n IH]; intros Hl Hr; [done|].
  rewrite seq_S, for_each_app, IH by lia. cbn [bind for_each plus].
  destruct (lookup_lt_is_Some_2 event_log n) as [t Ht]; [lia|].
  destruct (lookup_lt_is_Some_2 replayed_traces n) as [r Hrn]; [lia|].
  unfold fitness_body, index. rewrite Hrn, Ht. cbn [bind].
  rewrite (take_S_r _ _ _ Ht), (take_S_r _ _ _ Hrn).
  unfold fit_traces.
  rewrite zip_with_app by (rewrite !length_take_le; lia).
  rewrite filter_app, fmap_app. cbn [zip_with].
  rewrite filter_cons, filter_nil. cbn [snd].
  destruct (trace_is_fit r); cbn [bind].
  - rewrite decide_True by done. done.
  - rewrite decide_False by done. by rewrite app_nil_r.
Qed.

Lemma filter_log_by_trace_fitness_ok event_log replayed_traces :
  length event_log ≤ length replayed_traces →
  filter_log_by_trace_fitness event_log replayed_traces
  = Ok (fit_traces event_log replayed_traces).
Proof.
  intros Hlen. unfold filter_log_by_trace_fitness.
  rewrite fitness_loop_prefix by lia.
  rewrite take_ge by lia. unfold fit_traces.
  by rewrite zip_with_take_r.
Qed.

Lemma filter_log_by_trace_fitness_short event_log replayed_traces :
  length replayed_traces < length event_log →
  filter_log_by_trace_fitness event_log replayed_traces = Raise IndexError.
Proof.
  intros Hlen. unfold filter_log_by_trace_fitness.
  replace (length event_log)
    with (length replayed_traces
          + S (length event_log - S (length replayed_traces))) by lia.
  rewrite seq_app, for_each_app, fitness_loop_prefix by lia.
  cbn [bind for_each seq plus]. unfold fitness_body at 1, index.
  by rewrite lookup_ge_None_2.
Qed.

Lemma fit_traces_sublist event_log replayed_traces :
  fit_traces event_log replayed_traces `sublist_of` event_log.
Proof.
  unfold fit_traces. revert replayed_traces.
  induction event_log as [|t l IH]; intros [|r rs]; simpl;
    try apply sublist_nil_l.
  rewrite filter_cons. destruct (decide _); simpl.
  - apply sublist_skip, IH.
  - apply sublist_cons, IH.
Qed.

(** C7, as the code has it: the result is the traces at the positions
    whose replay result is fit, in order, whenever the result sequence is
    at least as long as the log, and entries of the result beyond the end
    of the log are never read; a result sequence shorter than the log
    raises [IndexError]. *)
Theorem filter_log_by_trace_fitness_spec (event_log : EventLog)
    (replayed_traces : list ReplayedTrace) :
  (length event_log ≤ length replayed_traces →
   filter_log_by_trace_fitness event_log replayed_traces
   = Ok (fit_traces event_log replayed_traces)
   ∧ ∀ trace, trace ∈ fit_traces event_log replayed_traces
       ↔ ∃ i replayed, event_log !! i = Some trace
           ∧ replayed_traces !! i = Some replayed
           ∧ trace_is_fit replayed = true)
  ∧ (length replayed_traces < length event_log →
     filter_log_by_trace_fitness event_log replayed_traces
     = Raise IndexError).
Proof.
  split.
  - intros Hlen. split; [by apply filter_log_by_trace_fitness_ok|].
    intros t. unfold fit_traces. rewrite list_elem_of_fmap. split.
    + intros ([t' r] & -> & [Hfit Hin]%list_elem_of_filter).
      apply list_elem_of_lookup in Hin as [i Hi].
      apply lookup_zip_with_Some in Hi as (t0 & r0 & [= <- <-] & Ht & Hr).
      by exists i, r.
    + intros (i & r & Ht & Hr & Hfit). exists (t, r). split; [done|].
      apply list_elem_of_filter. split; [done|].
      apply list_elem_of_lookup. exists i.
      apply lookup_zip_with_Some. by exists t, r.
  - apply filter_log_by_trace_fitness_short.
Qed.

Lemma filter_log_by_trace_fitness_spec_witness :
  filter_log_by_trace_fitness [gris_in_order; gris_repeated]
    [mkReplayedTrace false; mkReplayedTrace true]
  = Ok [gris_repeated]
  ∧ filter_log_by_trace_fitness [gris_in_order; gris_repeated]
      [mkReplayedTrace false]
    = Raise IndexError.
Proof.
  split.
  - apply (proj1 (filter_log_by_trace_fitness_spec
                    [gris_in_order; gris_repeated]
                    [mkReplayedTrace false; mkReplayedTrace true])).
    simpl. lia.
  - apply (proj2 (filter_log_by_trace_fitness_spec
                    [gris_in_order; gris_repeated]
                    [mkReplayedTrace false])).
    simpl. lia.
Defined.

(** C7 as stated fails: a result sequence longer than the log is a length
    mismatch, and the filter returns a log. *)
Lemma filter_log_by_trace_fitness_longer_result :
  length [mkReplayedTrace true; mkReplayedTrace false]
  ≠ length [gris_in_order]
  ∧ filter_log_by_trace_fitness [gris_in_order]
      [mkReplayedTrace true; mkReplayedTrace false]
    = Ok [gris_in_order].
Proof. split; [simpl; lia|by vm_compute]. Qed.

(** ** The achievement-window filter *)

Lemma scan_level_window start_ end_ add new_trace trace :
  scan_level start_ end_ add new_trace trace
  = new_trace
    ++ filter (λ ev, concept_name ev ∈ level_markers)
         (if add then through_end end_ trace
          else included_window start_ end_ trace).
Proof.
  revert add new_trace.
  induction trace as [|a rest IH]; intros add new_trace.
  { simpl. destruct add; by rewrite app_nil_r. }
  unfold included_window. cbn [scan_level through_end].
  destruct (String.eqb (concept_name a) start_) eqn:Hs,
    (String.eqb (concept_name a) end_) eqn:He, add;
    cbn [from_start andb]; rewrite ?Hs; try rewrite IH;
    rewrite ?filter_cons, ?filter_nil;
    try case_bool_decide; rewrite ?decide_True, ?decide_False by done;
    by rewrite <- ?app_assoc, ?app_nil_r.
Qed.

Lemma filter_achievements_by_level_fmap event_log start_ end_ :
  filter_achievements_by_level event_log start_ end_
  = (λ trace, mkTrace None (level_events start_ end_ (events trace)))
    <$> event_log.
Proof.
  unfold filter_achievements_by_level.
  assert (∀ l acc,
    foldl (λ new_log trace,
             new_log ++ [mkTrace None
                           (scan_level start_ end_ false [] (events trace))])
          acc l
    = acc ++ ((λ trace, mkTrace None (level_events start_ end_ (events trace)))
              <$> l)) as Hloop.
  { induction l as [|t l IH]; intros acc; simpl.
    - by rewrite app_nil_r.
    - rewrite IH, scan_level_window, <- app_assoc. done. }
  by rewrite Hloop.
Qed.

(** C10: the result has one trace per input trace, at the same position
    and holding the allow-listed events of that trace's included window;
    it has as many traces as the input; and where the window has no
    allow-listed event the output trace is the empty trace, present at
    its position. *)
Theorem filter_achievements_by_level_one_per_trace (event_log : EventLog)
    (start_achievement end_achievement : string) :
  length (filter_achievements_by_level event_log start_achievement
            end_achievement) = length event_log
  ∧ (∀ i, filter_achievements_by_level event_log start_achievement
            end_achievement !! i
          = (λ trace,
               mkTrace None
                 (level_events start_achievement end_achievement
                    (events trace))) <$> event_log !! i)
  ∧ (∀ i trace, event_log !! i = Some trace →
       Forall (λ ev, concept_name ev ∉ level_markers)
         (included_window start_achievement end_achievement (events trace)) →
       filter_achievements_by_level event_log start_achievement
         end_achievement !! i = Some (mkTrace None [])).
Proof.
  rewrite filter_achievements_by_level_fmap. split_and!.
  - apply length_fmap.
  - intros i. apply list_lookup_fmap.
  - intros i t Ht Hnone. rewrite list_lookup_fmap, Ht. simpl.
    unfold level_events. by rewrite filter_none.
Qed.

Lemma filter_achievements_by_level_one_per_trace_witness :
  filter_achievements_by_level [gris_in_order; gris_repeated]
    "Terraformer IV" "Terraformer V" !! 1
  = Some (mkTrace None []).
Proof.
  apply (proj2 (proj2 (filter_achievements_by_level_one_per_trace
           [gris_in_order; gris_repeated] "Terraformer IV" "Terraformer V"))
           1 gris_repeated).
  - reflexivity.
  - vm_compute. constructor.
Defined.

(** ** Raising loops in general *)

Lemma for_each_only_raises {A S} (body : S → A → result S) (l : list A)
    (s : S) (e0 e : exn) :
  (∀ s x e, body s x = Raise e → e = e0) →
  for_each body l s = Raise e → e = e0.
Proof.
  intros Honly. revert s. induction l as [|x l IH]; intros s; [done|].
  simpl. destruct (body s x) as [s'|e'] eqn:Hb; simpl.
  - apply IH.
  - intros [= <-]. by eapply Honly.
Qed.

Lemma for_each_total {A S} (body : S → A → result S) (l : list A) (s : S) :
  (∀ s x, x ∈ l → ∃ s', body s x = Ok s') →
  ∃ s', for_each body l s = Ok s'.
Proof.
  revert s. induction l as [|x l IH]; intros s Hok; [by eexists|].
  simpl. destruct (Hok s x) as [s' ->]; [left|]. simpl.
  apply IH. intros s0 y Hy. apply Hok. by right.
Qed.

Lemma filter_raising_ok {A} (f : A → result bool) (l : list A) :
  Forall (λ x, ∃ b, f x = Ok b) l →
  filter_raising f l = Ok (filter (λ x, f x = Ok true) l).
Proof.
  induction 1 as [|x l [b Hb] _ IH]; [done|].
  cbn [filter_raising]. rewrite IH, filter_cons.
  destruct (decide (f x = Ok true)) as [Ht|Hf]; rewrite Hb; cbn [bind].
  - destruct b; [done|congruence].
  - destruct b; [congruence|done].
Qed.

Lemma filter_raising_raises {A} (f : A → result bool) (l : list A) e :
  (∀ x e', f x = Raise e' → e' = e) →
  Exists (λ x, f x = Raise e) l →
  filter_raising f l = Raise e.
Proof.
  intros Honly. induction 1 as [x l Hx|x l _ IH]; simpl.
  - by rewrite Hx.
  - rewrite IH. destruct (f x) as [b|e'] eqn:Hf; [done|].
    simpl. f_equal. by eapply Honly.
Qed.

Lemma list_filter_fmap {A B} (f : A → B) (P : B → Prop)
    `{!∀ y, Decision (P y)} (l : list A) :
  filter P (f <$> l) = f <$> filter (λ x, P (f x)) l.
Proof.
  induction l as [|x l IH]; [done|].
  rewrite fmap_cons, !filter_cons, IH. by destruct (decide (P (f x))).
Qed.

(** ** The log converter *)

Lemma to_event_stream_cons (trace : Trace) (log : EventLog) :
  to_event_stream (trace :: log)
  = (mkStreamEvent (attributes trace) <$> events trace)
    ++ to_event_stream log.
Proof. done. Qed.

Lemma to_event_stream_app (log1 log2 : EventLog) :
  to_event_stream (log1 ++ log2)
  = to_event_stream log1 ++ to_event_stream log2.
Proof. unfold to_event_stream. apply bind_app. Qed.

Lemma elem_of_to_event_stream (x : StreamEvent) (log : EventLog) :
  x ∈ to_event_stream log
  ↔ ∃ trace, trace ∈ log ∧ case_concept_name x = attributes trace
             ∧ event x ∈ events trace.
Proof.
  unfold to_event_stream. rewrite list_elem_of_bind. split.
  - intros (t & (ev & -> & Hev)%list_elem_of_fmap & Ht). by exists t.
  - intros (t & Ht & Hc & Hev). exists t. split; [|done].
    apply list_elem_of_fmap. exists (event x). split; [|done].
    destruct x. simpl in *. by subst.
Qed.

Lemma filter_to_event_stream (P : StreamEvent → Prop)
    `{!∀ x, Decision (P x)} (log : EventLog) :
  filter P (to_event_stream log)
  = to_event_stream
      ((λ trace,
          mkTrace (attributes trace)
            (filter (λ ev, P (mkStreamEvent (attributes trace) ev))
               (events trace))) <$> log).
Proof.
  induction log as [|t log IH]; [done|].
  rewrite fmap_cons, !to_event_stream_cons, filter_app, IH.
  by rewrite list_filter_fmap.
Qed.



Lemma append_to_case_fresh (traces : EventLog) c ev :
  Some c ∉ attributes <$> traces →
  append_to_case traces c ev = traces ++ [mkTrace (Some c) [ev]].
Proof.
  induction traces as [|t traces IH]; intros Hfresh; [done|].
  simpl. rewrite fmap_cons, not_elem_of_cons in Hfresh.
  destruct Hfresh as [Hne Hfresh].
  rewrite bool_decide_eq_false_2 by done. by rewrite IH.
Qed.

Lemma append_to_case_last (traces : EventLog) c evs ev :
  Some c ∉ attributes <$> traces →
  append_to_case (traces ++ [mkTrace (Some c) evs]) c ev
  = traces ++ [mkTrace (Some c) (evs ++ [ev])].
Proof.
  induction traces as [|t traces IH]; intros Hfresh.
  - simpl. by rewrite bool_decide_eq_true_2.
  - simpl. rewrite fmap_cons, not_elem_of_cons in Hfresh.
    destruct Hfresh as [Hne Hfresh].
    rewrite bool_decide_eq_false_2 by done. by rewrite IH.
Qed.

Lemma to_event_log_one_case (traces : EventLog) c evs0 evs :
  Some c ∉ attributes <$> traces →
  for_each to_event_log_body (mkStreamEvent (Some c) <$> evs)
    (traces ++ [mkTrace (Some c) evs0])
  = Ok (traces ++ [mkTrace (Some c) (evs0 ++ evs)]).
Proof.
  intros Hfresh. revert evs0.
  induction evs as [|ev evs IH]; intros evs0; simpl.
  - by rewrite app_nil_r.
  - unfold to_event_log_body at 1. simpl.
    rewrite append_to_case_last by done. rewrite IH.
    by rewrite <- app_assoc.
Qed.

(** Converting a log with distinct case ids and no empty trace to a
    stream and back gives the log again. *)
Lemma to_event_log_from (traces log : EventLog) :
  NoDup (attributes <$> (traces ++ log)) →
  Forall (λ trace, is_Some (attributes trace) ∧ events trace ≠ []) log →
  for_each to_event_log_body (to_event_stream log) traces
  = Ok (traces ++ log).
Proof.
  intros Hnd Hall. revert traces Hnd.
  induction Hall as [|t log [[c Hc] Hne] _ IH]; intros traces Hnd.
  - by rewrite app_nil_r.
  - rewrite to_event_stream_cons, for_each_app.
    destruct t as [a [|ev evs]]; simpl in Hc, Hne; [done|]. subst a.
    assert (Some c ∉ attributes <$> traces) as Hfresh.
    { rewrite fmap_app, fmap_cons in Hnd.
      apply NoDup_app in Hnd as (_ & Hdisj & _).
      intros Hin. apply (Hdisj _ Hin). left. }
    cbn [attributes events]. rewrite fmap_cons. cbn [for_each].
    unfold to_event_log_body at 1.
    cbn [attr bind case_concept_name event].
    rewrite append_to_case_fresh by done.
    rewrite to_event_log_one_case by done. cbn [bind app].
    rewrite IH; rewrite <- app_assoc; done.
Qed.

Lemma to_event_log_roundtrip (log : EventLog) :
  NoDup (attributes <$> log) →
  Forall (λ trace, is_Some (attributes trace) ∧ events trace ≠ []) log →
  to_event_log (to_event_stream log) = Ok log.
Proof. intros Hnd Hall. by apply (to_event_log_from [] log). Qed.

(** ** The first-playthrough truncator *)

Lemma record_end_timestamps_snoc game (stream : EventStream) x :
  record_end_timestamps game (stream ++ [x])
  = (end_timestamps ←! record_end_timestamps game stream;
     if String.eqb (concept_name (event x)) (end_achievement game)
     then case_id ←! attr (case_concept_name x);
          Ok (<[case_id := time_timestamp (event x)]> end_timestamps)
     else Ok end_timestamps).
Proof.
  unfold record_end_timestamps. rewrite for_each_app.
  destruct (for_each _ stream ∅) as [m|e]; [|done]. cbn [bind for_each].
  by destruct (if String.eqb _ _ then _ else _).
Qed.

Lemma record_end_timestamps_lookup game (stream : EventStream)
    (m : gmap string Z) :
  record_end_timestamps game stream = Ok m →
  ∀ c, m !! c = last_end game c stream.
Proof.
  revert m. induction stream as [|x stream IH] using rev_ind; intros m Hr c.
  { injection Hr as <-. by rewrite lookup_empty. }
  rewrite record_end_timestamps_snoc in Hr.
  destruct (record_end_timestamps game stream) as [m0|] eqn:H0; [|done].
  cbn [bind] in Hr. unfold last_end.
  rewrite filter_app, filter_cons, filter_nil.
  destruct (String.eqb _ _) eqn:He.
  - apply String.eqb_eq in He.
    destruct (case_concept_name x) as [c0|] eqn:Hc; [|done].
    cbn [attr bind] in Hr. injection Hr as <-.
    destruct (decide (c0 = c)) as [->|Hne].
    + rewrite lookup_insert_eq, decide_True by done. by rewrite last_snoc.
    + rewrite lookup_insert_ne by done.
      rewrite decide_False by (intros [[= ?] _]; done).
      rewrite app_nil_r. by apply IH.
  - apply String.eqb_neq in He. injection Hr as <-.
    rewrite decide_False by (intros [_ ?]; done).
    rewrite app_nil_r. by apply IH.
Qed.

Lemma record_end_timestamps_only_KeyError game (stream : EventStream) e :
  record_end_timestamps game stream = Raise e → e = KeyError.
Proof.
  apply for_each_only_raises. intros m x e'.
  destruct (String.eqb _ _); [|done].
  by destruct (case_concept_name x); intros [= <-].
Qed.

Lemma record_end_timestamps_total game (stream : EventStream) :
  Forall has_case stream →
  ∃ m, record_end_timestamps game stream = Ok m.
Proof.
  intros Hall. apply for_each_total. intros m x Hx.
  destruct (String.eqb _ _); [|by eexists].
  rewrite Forall_forall in Hall. destruct (Hall x Hx) as [c ->].
  by eexists.
Qed.

Lemma before_end_true (m : gmap string Z) (x : StreamEvent) :
  before_end m x = Ok true
  ↔ ∃ c te, case_concept_name x = Some c ∧ m !! c = Some te
            ∧ (time_timestamp (event x) ≤ te)%Z.
Proof.
  unfold before_end, getitem.
  destruct (case_concept_name x) as [c|]; simpl; [|naive_solver].
  destruct (m !! c) as [te|] eqn:Hm; simpl.
  - split.
    + intros [= Hle%bool_decide_eq_true]. by exists c, te.
    + intros (c' & te' & [= <-] & Hm' & Hle).
      rewrite Hm in Hm'. injection Hm' as <-.
      by rewrite bool_decide_eq_true_2.
  - split; [done|]. intros (c' & te' & [= <-] & Hm' & _). congruence.
Qed.

Lemma before_end_returns (m : gmap string Z) (x : StreamEvent) c :
  case_concept_name x = Some c → is_Some (m !! c) →
  ∃ b, before_end m x = Ok b.
Proof.
  intros Hc [te Hm]. unfold before_end, getitem. rewrite Hc. simpl.
  rewrite Hm. by eexists.
Qed.

Lemma before_end_only_KeyError (m : gmap string Z) (x : StreamEvent) e :
  before_end m x = Raise e → e = KeyError.
Proof.
  unfold before_end, getitem.
  destruct (case_concept_name x) as [c|]; simpl; [|by intros [= <-]].
  destruct (m !! c); simpl; [done|by intros [= <-]].
Qed.

Lemma before_end_raises (m : gmap string Z) (x : StreamEvent) :
  (∀ c, case_concept_name x = Some c → m !! c = None) →
  before_end m x = Raise KeyError.
Proof.
  intros Hno. unfold before_end, getitem.
  destruct (case_concept_name x) as [c|]; simpl; [|done].
  by rewrite Hno.
Qed.

Lemma last_end_other_cases game c (log : EventLog) :
  Some c ∉ attributes <$> log →
  filter (λ x, case_concept_name x = Some c ∧ is_end game (event x))
    (to_event_stream log) = [].
Proof.
  intros Hfresh. apply filter_none, Forall_forall.
  intros x (t & Ht & Hc & _)%elem_of_to_event_stream [Hx _].
  apply Hfresh, list_elem_of_fmap. exists t. split; [congruence|done].
Qed.

Lemma last_end_cutoff game c (log : EventLog) (trace : Trace) :
  NoDup (attributes <$> log) → trace ∈ log → attributes trace = Some c →
  last_end game c (to_event_stream log) = cutoff game trace.
Proof.
  intros Hnd Ht Hc.
  apply list_elem_of_split in Ht as (l1 & l2 & ->).
  rewrite fmap_app, fmap_cons, Hc in Hnd.
  apply NoDup_app in Hnd as (_ & Hdisj & [Hl2 _]%NoDup_cons).
  assert (Some c ∉ attributes <$> l1) as Hl1.
  { intros Hin. apply (Hdisj _ Hin). left. }
  unfold last_end, cutoff.
  rewrite to_event_stream_app, to_event_stream_cons, !filter_app.
  rewrite !last_end_other_cases by done. rewrite app_nil_r. simpl.
  rewrite list_filter_fmap, fmap_last, <- option_fmap_compose. simpl.
  rewrite (filter_ext_iff _ (is_end game)); [done|].
  intros ev _. simpl. naive_solver.
Qed.

Lemma last_end_is_Some game c (log : EventLog) (trace : Trace) :
  trace ∈ log → attributes trace = Some c →
  Exists (is_end game) (events trace) →
  is_Some (last_end game c (to_event_stream log)).
Proof.
  intros Ht Hc (ev & Hev & Hend)%Exists_exists.
  unfold last_end. apply fmap_is_Some, last_is_Some.
  intros Hnil.
  assert (mkStreamEvent (Some c) ev
          ∈ filter (λ x, case_concept_name x = Some c
                         ∧ is_end game (event x)) (to_event_stream log))
    as Hin; [|rewrite Hnil in Hin; by apply not_elem_of_nil in Hin].
  apply list_elem_of_filter. split; [done|].
  apply elem_of_to_event_stream. by exists trace.
Qed.

Lemma finished_stream game (log : EventLog) (m : gmap string Z) :
  Forall (λ trace, events trace = [] ∨ finished game trace) log →
  record_end_timestamps game (to_event_stream log) = Ok m →
  Forall (λ x, ∃ c, case_concept_name x = Some c ∧ is_Some (m !! c))
    (to_event_stream log).
Proof.
  intros Hall Hm. apply Forall_forall.
  intros x (t & Ht & Hc & Hev)%elem_of_to_event_stream.
  rewrite Forall_forall in Hall.
  destruct (Hall t Ht) as [Hnil|[[c Hattr] Hend]].
  { rewrite Hnil in Hev. by apply not_elem_of_nil in Hev. }
  exists c. split; [congruence|].
  rewrite (record_end_timestamps_lookup _ _ _ Hm).
  by eapply last_end_is_Some.
Qed.




Lemma finished_last_end game (trace : Trace) :
  Exists (is_end game) (events trace) →
  ∃ e_last, last (filter (is_end game) (events trace)) = Some e_last
            ∧ e_last ∈ events trace.
Proof.
  intros (ev & Hev & Hend)%Exists_exists.
  destruct (last (filter (is_end game) (events trace))) as [e_last|] eqn:Hl.
  - exists e_last. split; [done|].
    apply last_Some_elem_of, list_elem_of_filter in Hl. tauto.
  - apply last_None in Hl.
    assert (ev ∈ filter (is_end game) (events trace)) as Hin
      by (by apply list_elem_of_filter).
    rewrite Hl in Hin. by apply not_elem_of_nil in Hin.
Qed.

Lemma elem_of_first_playthrough game (trace : Trace) e_last ev :
  last (filter (is_end game) (events trace)) = Some e_last →
  ev ∈ events (first_playthrough game trace)
  ↔ ev ∈ events trace ∧ (time_timestamp ev ≤ time_timestamp e_last)%Z.
Proof.
  intros Hlast. unfold first_playthrough, cutoff. simpl.
  rewrite list_elem_of_filter, Hlast. simpl.
  rewrite bool_decide_eq_true. tauto.
Qed.

(** C9: on a log whose traces have distinct case ids and all contain the
    end achievement, the truncator returns the log with every trace cut
    at the timestamp of its last end-achievement event: an event of the
    trace is in the output trace exactly when it is not later than that
    last occurrence, whatever earlier occurrences there are. *)
Theorem filter_achievements_by_first_playthrough_last_occurrence
    (game : Game) (event_log : EventLog) :
  NoDup (attributes <$> event_log) →
  Forall (finished game) event_log →
  filter_achievements_by_first_playthrough event_log game
  = Ok (first_playthrough game <$> event_log)
  ∧ ∀ trace e_last, trace ∈ event_log →
      last (filter (is_end game) (events trace)) = Some e_last →
      ∀ ev, ev ∈ events (first_playthrough game trace)
            ↔ ev ∈ events trace
              ∧ (time_timestamp ev ≤ time_timestamp e_last)%Z.
Proof.
  intros Hnd Hfin. split.
  2:{ intros t e_last _ Hlast ev. by apply elem_of_first_playthrough. }
  assert (Forall (λ trace, events trace = [] ∨ finished game trace)
            event_log) as Hall.
  { eapply Forall_impl; [exact Hfin|]. intros t Ht. by right. }
  assert (Forall has_case (to_event_stream event_log)) as Hcases.
  { apply Forall_forall.
    intros x (t & Ht & Hc & Hev)%elem_of_to_event_stream.
    rewrite Forall_forall in Hfin. destruct (Hfin t Ht) as [Hattr _].
    unfold has_case. by rewrite Hc. }
  destruct (record_end_timestamps_total game _ Hcases) as [m Hm].
  pose proof (finished_stream _ _ _ Hall Hm) as Hknown.
  unfold filter_achievements_by_first_playthrough.
  rewrite Hm. cbn [bind]. rewrite filter_raising_ok.
  2:{ eapply Forall_impl; [exact Hknown|].
      intros x (c & Hc & Hsome). by eapply before_end_returns. }
  cbn [bind]. rewrite filter_to_event_stream.
  rewrite (Forall_fmap_ext_1 _ (first_playthrough game)).
  - apply to_event_log_roundtrip.
    + rewrite <- list_fmap_compose. done.
    + apply Forall_fmap. eapply Forall_impl; [exact Hfin|].
      intros t [Hattr Hend]. split; [done|].
      destruct (finished_last_end game t Hend) as (e_last & Hlast & Hin).
      intros Hnil.
      assert (e_last ∈ events (first_playthrough game t)) as Hkept.
      { apply (elem_of_first_playthrough game t e_last); [done|].
        split; [done|lia]. }
      rewrite Hnil in Hkept. by apply not_elem_of_nil in Hkept.
  - apply Forall_forall. intros t Ht.
    rewrite Forall_forall in Hfin. destruct (Hfin t Ht) as [[c Hc] Hend].
    unfold first_playthrough. f_equal.
    apply filter_ext_iff. intros ev _.
    rewrite before_end_true. simpl. rewrite Hc.
    rewrite <- (last_end_cutoff game c event_log t) by done.
    rewrite <- (record_end_timestamps_lookup _ _ _ Hm).
    destruct (m !! c) as [te|] eqn:Hmc; simpl.
    + rewrite bool_decide_eq_true. split.
      * intros (c' & te' & [= <-] & Hm' & Hle). congruence.
      * intros Hle. by exists c, te.
    + split; [|done]. intros (c' & te' & [= <-] & Hm' & _). congruence.
Qed.

Lemma filter_achievements_by_first_playthrough_last_occurrence_witness :
  filter_achievements_by_first_playthrough [gris_finished_twice] GRIS
  = Ok [mkTrace (Some "p3")
          [mkEvent "Red" 1; mkEvent "The End" 5; mkEvent "Blue" 7;
           mkEvent "The End" 9]].
Proof.
  apply (proj1 (filter_achievements_by_first_playthrough_last_occurrence
                  GRIS [gris_finished_twice]
                  ltac:(apply (bool_decide_unpack _); by vm_compute)
                  ltac:(apply (bool_decide_unpack _); by vm_compute))).
Defined.

(** ** Stability of the filters *)

Lemma filter_players_by_reviews_keep_loop (event_log : EventLog)
    (player_stats : dict PlayerStats) (keep_positive : bool) :
  filter_players_by_reviews event_log player_stats keep_positive
  = keep_loop (λ trace,
        case_id ←! attr (attributes trace);
        stats ←! dict_get player_stats case_id;
        Ok (Bool.eqb (left_positive_review stats) keep_positive))
      event_log [].
Proof.
  unfold filter_players_by_reviews, keep_loop. apply for_each_ext.
  intros acc t _. destruct (attr (attributes t)) as [c|]; [|done].
  cbn [bind]. destruct (dict_get player_stats c) as [st|]; [|done].
  cbn [bind]. by destruct (Bool.eqb _ _).
Qed.

Lemma keep_loop_sublist {A} (g : A → result bool) (l out : list A) :
  keep_loop g l [] = Ok out → out `sublist_of` l.
Proof.
  intros Hret. pose proof (keep_loop_returns _ _ _ _ Hret) as Hall.
  rewrite (keep_loop_ok _ _ _ Hall) in Hret. injection Hret as <-.
  apply sublist_filter.
Qed.

Lemma through_end_sublist end_ (trace : list Event) :
  through_end end_ trace `sublist_of` trace.
Proof.
  induction trace as [|ev rest IH]; simpl; [done|].
  destruct (String.eqb _ _).
  - apply sublist_skip, sublist_nil_l.
  - by apply sublist_skip.
Qed.

Lemma from_start_sublist start_ (trace : list Event) :
  from_start start_ trace `sublist_of` trace.
Proof.
  induction trace as [|ev rest IH]; simpl; [done|].
  destruct (String.eqb _ _); [done|]. by apply sublist_cons.
Qed.

Lemma level_events_sublist start_ end_ (trace : list Event) :
  level_events start_ end_ trace `sublist_of` trace.
Proof.
  unfold level_events, included_window.
  etrans; [apply sublist_filter|].
  etrans; [apply from_start_sublist|]. apply through_end_sublist.
Qed.

Lemma attributes_filter_apply_events_stable (log : EventLog) values positive :
  Forall2 (λ out trace, attributes out = attributes trace
                        ∧ events out `sublist_of` events trace)
    (attributes_filter_apply_events log values positive) log.
Proof.
  unfold attributes_filter_apply_events.
  apply Forall2_fmap_l, Forall_Forall2_diag, Forall_forall.
  intros t _. simpl. split; [done|apply sublist_filter].
Qed.

(** C8: every filter leaves the traces in the order of the input.  The
    filters that decide on whole traces return a subsequence of the input
    log; the two that work on events return one trace per input trace, at
    the same position, with a subsequence of its events. *)
Theorem filters_never_reorder (event_log : EventLog) :
  (∀ common_achievements,
     Forall2 (λ out trace, attributes out = attributes trace
                           ∧ events out `sublist_of` events trace)
       (filter_events_by_common_achievements event_log common_achievements)
       event_log)
  ∧ (∀ game,
       Forall2 (λ out trace, attributes out = attributes trace
                             ∧ events out `sublist_of` events trace)
         (filter_main_achievements event_log game) event_log)
  ∧ (∀ game finished,
       filter_players_by_game_completion event_log game finished
       `sublist_of` event_log)
  ∧ (∀ game out,
       filter_incorrect_traces event_log game = Ok out →
       out `sublist_of` event_log)
  ∧ (∀ keep_cheating,
       filter_cheating_players event_log keep_cheating
       `sublist_of` event_log)
  ∧ (∀ start_date,
       filter_achievements_by_date event_log start_date
       `sublist_of` event_log)
  ∧ (∀ player_stats keep_positive out,
       filter_players_by_reviews event_log player_stats keep_positive
       = Ok out →
       out `sublist_of` event_log)
  ∧ (∀ replayed_traces out,
       filter_log_by_trace_fitness event_log replayed_traces = Ok out →
       out `sublist_of` event_log)
  ∧ (∀ start_achievement end_achievement,
       Forall2 (λ out trace, events out `sublist_of` events trace)
         (filter_achievements_by_level event_log start_achievement
            end_achievement) event_log)
  ∧ (∀ log_b, log_difference event_log log_b `sublist_of` event_log).
Proof.
  split_and!.
  - intros common. apply attributes_filter_apply_events_stable.
  - intros game. apply attributes_filter_apply_events_stable.
  - intros game finished. apply sublist_filter.
  - intros game out. rewrite filter_incorrect_traces_keep_loop.
    apply keep_loop_sublist.
  - intros c. rewrite filter_cheating_players_filter. apply sublist_filter.
  - intros start_date. apply log_difference_sublist.
  - intros stats k out. rewrite filter_players_by_reviews_keep_loop.
    apply keep_loop_sublist.
  - intros replayed out Hret.
    destruct (decide (length event_log ≤ length replayed)) as [Hle|Hgt].
    + rewrite filter_log_by_trace_fitness_ok in Hret by done.
      injection Hret as <-. apply fit_traces_sublist.
    + rewrite filter_log_by_trace_fitness_short in Hret by lia. done.
  - intros start_ end_. rewrite filter_achievements_by_level_fmap.
    apply Forall2_fmap_l, Forall_Forall2_diag, Forall_forall.
    intros t _. simpl. apply level_events_sublist.
  - apply log_difference_sublist.
Qed.

Lemma filters_never_reorder_witness :
  [gris_in_order; gris_finished_twice]
  `sublist_of` [gris_in_order; gris_repeated; gris_finished_twice].
Proof.
  destruct (filters_never_reorder
              [gris_in_order; gris_repeated; gris_finished_twice])
    as (_ & _ & _ & _ & _ & _ & _ & Hfitness & _).
  apply (Hfitness [mkReplayedTrace true; mkReplayedTrace false;
                   mkReplayedTrace true]).
  vm_compute. reflexivity.
Defined.

(** ** Missing configuration *)

Lemma has_activity_empty_name (trace : Trace) :
  Forall (λ ev, concept_name ev ≠ EmptyString) (events trace) →
  has_activity [EmptyString] trace = false.
Proof.
  unfold has_activity. induction 1 as [|ev evs Hev _ IH]; [done|].
  simpl. rewrite IH. rewrite bool_decide_eq_false_2; [done|].
  by intros Heq%list_elem_of_singleton.
Qed.

Lemma scan_main_achievements_nil count timestamps (trace : list Event) :
  scan_main_achievements [] count timestamps trace = Ok false.
Proof.
  induction trace as [|a rest IH]; [done|]. cbn [scan_main_achievements].
  rewrite bool_decide_eq_false_2; [apply IH|apply not_elem_of_nil].
Qed.

(** C6, as the code has it: no filter checks the configuration.  For a
    game without end achievement the completion filter with
    [finished = True] looks for the empty activity name and returns the
    empty log when no event has it; for a game without main achievements
    the sequence validator returns the log as it is and the level
    partitioner records no level. *)
Theorem missing_configuration_is_silent (game : Game)
    (event_log : EventLog) :
  (end_achievement game = EmptyString →
   Forall (λ trace,
             Forall (λ ev, concept_name ev ≠ EmptyString) (events trace))
     event_log →
   filter_players_by_game_completion event_log game true = [])
  ∧ (main_achievements game = [] →
     filter_incorrect_traces event_log game = Ok event_log
     ∧ ∀ reviews,
         divide_unfinished_players_by_levels event_log game reviews = Ok []).
Proof.
  split.
  - intros Hend Hnames. unfold filter_players_by_game_completion.
    rewrite Hend. unfold attributes_filter_apply.
    apply filter_none. eapply Forall_impl; [exact Hnames|].
    intros t Ht. simpl. by rewrite has_activity_empty_name.
  - intros Hmains. split.
    + rewrite filter_incorrect_traces_keep_loop, Hmains.
      rewrite keep_loop_ok.
      * simpl. f_equal. apply filter_all, Forall_forall. intros t _.
        by rewrite scan_main_achievements_nil.
      * apply Forall_forall. intros t _.
        rewrite scan_main_achievements_nil. by eexists.
    + intros reviews. unfold divide_unfinished_players_by_levels.
      by rewrite Hmains.
Qed.

Lemma missing_configuration_is_silent_witness :
  filter_players_by_game_completion [gris_in_order; gris_repeated]
    FRIDAY_THE_13TH true = []
  ∧ filter_incorrect_traces [gris_in_order; gris_repeated] FRIDAY_THE_13TH
    = Ok [gris_in_order; gris_repeated].
Proof.
  split.
  - apply (proj1 (missing_configuration_is_silent FRIDAY_THE_13TH
                    [gris_in_order; gris_repeated])).
    + reflexivity.
    + apply (bool_decide_unpack _). by vm_compute.
  - apply (proj2 (missing_configuration_is_silent FRIDAY_THE_13TH
                    [gris_in_order; gris_repeated])).
    reflexivity.
Defined.

(** C6 as stated fails: Friday the 13th has neither an end achievement
    nor main achievements, and the completion filter, the sequence
    validator and the level partitioner all return, the first with an
    empty log. *)
Lemma missing_configuration_not_reported :
  end_achievement FRIDAY_THE_13TH = EmptyString
  ∧ main_achievements FRIDAY_THE_13TH = []
  ∧ filter_players_by_game_completion [gris_in_order; gris_repeated]
      FRIDAY_THE_13TH true = []
  ∧ filter_incorrect_traces [gris_in_order; gris_repeated] FRIDAY_THE_13TH
    = Ok [gris_in_order; gris_repeated]
  ∧ divide_unfinished_players_by_levels [gris_in_order; gris_repeated]
      FRIDAY_THE_13TH [] = Ok [].
Proof. split_and!; by vm_compute. Qed.

(** ** The level partitioner *)

Lemma Forall_sublist_of {A} (P : A → Prop) (l k : list A) :
  l `sublist_of` k → Forall P k → Forall P l.
Proof.
  induction 1 as [|x l k _ IH|x l k _ IH]; intros Hk; [done|..].
  - apply Forall_cons in Hk as [Hx Hk]. constructor; auto.
  - apply Forall_cons in Hk as [_ Hk]. auto.
Qed.

Lemma dict_set_fresh {V} (d : dict V) (k : string) (v : V) :
  k ∉ d.*1 → dict_set d k v = d ++ [(k, v)].
Proof.
  induction d as [|[k' v'] d IH]; intros Hfresh; [done|].
  simpl in *. apply not_elem_of_cons in Hfresh as [Hne Hfresh].
  rewrite (proj2 (String.eqb_neq k' k)) by done. by rewrite IH.
Qed.

Lemma get_case_ids_total (event_log : EventLog) :
  Forall (λ trace, is_Some (attributes trace)) event_log →
  ∃ case_ids, get_case_ids event_log = Ok case_ids.
Proof.
  intros Hall. unfold get_case_ids. apply for_each_total.
  intros ids x (t & Ht & Hc & _)%elem_of_to_event_stream.
  rewrite Forall_forall in Hall. destruct (Hall t Ht) as [c Hattr].
  rewrite Hc, Hattr. by eexists.
Qed.

Lemma log_difference_level_log (log : EventLog) (values : list string) :
  log_difference log (attributes_filter_apply log values false)
  = attributes_filter_apply log values true.
Proof.
  rewrite log_difference_filter. unfold attributes_filter_apply.
  apply filter_ext_iff. intros t Ht. rewrite list_elem_of_filter.
  destruct (has_activity values t); naive_solver.
Qed.

Lemma attributes_filter_apply_lengths (log : EventLog) values :
  length (attributes_filter_apply log values false)
  + length (attributes_filter_apply log values true) = length log.
Proof.
  unfold attributes_filter_apply.
  pose proof (Permutation_length
                (filter_app_complement
                   (λ trace, has_activity values trace = true) log))
    as Hlen.
  rewrite length_app in Hlen.
  rewrite (filter_ext_iff (λ trace, has_activity values trace = false)
             (λ trace, ¬ has_activity values trace = true)).
  - lia.
  - intros t _. destruct (has_activity values t); naive_solver.
Qed.

Lemma level_round_returns mains reviews total
    (players_level_endings : dict LevelInfo) (filtered_log : EventLog)
    i next current :
  mains !! (i + 1) = Some next → mains !! i = Some current →
  Forall (λ trace, is_Some (attributes trace)) filtered_log →
  ∃ level_info,
    level_round mains reviews total (players_level_endings, filtered_log) i
    = Ok (dict_set players_level_endings current level_info,
          attributes_filter_apply filtered_log [next] true).
Proof.
  intros Hnext Hcur Hids. unfold level_round, index.
  rewrite Hnext. cbn [bind].
  destruct (get_case_ids_total
              (attributes_filter_apply filtered_log [next] false))
    as [ids ->].
  { eapply Forall_sublist_of; [apply sublist_filter|done]. }
  cbn [bind]. rewrite Hcur. cbn [bind].
  rewrite log_difference_level_log. by eexists.
Qed.

(** What a round that returns has done. *)
Lemma level_round_inv mains reviews total
    (players_level_endings endings' : dict LevelInfo)
    (filtered_log log' : EventLog) i :
  level_round mains reviews total (players_level_endings, filtered_log) i
  = Ok (endings', log') →
  ∃ next current level_info,
    mains !! (i + 1) = Some next ∧ mains !! i = Some current
    ∧ endings' = dict_set players_level_endings current level_info
    ∧ log' = attributes_filter_apply filtered_log [next] true
    ∧ level_num_players level_info
      = length (attributes_filter_apply filtered_log [next] false)
    ∧ total_num_players level_info = total.
Proof.
  unfold level_round, index.
  destruct (mains !! (i + 1)) as [next|]; [|done]. cbn [bind].
  destruct (get_case_ids _) as [ids|]; [|done]. cbn [bind].
  destruct (mains !! i) as [current|]; [|done]. cbn [bind].
  rewrite log_difference_level_log. intros [= <- <-].
  eexists next, current, _. by split_and!.
Qed.

Lemma level_rounds_total mains reviews total (k : nat) :
  ∀ i (players_level_endings : dict LevelInfo) (filtered_log : EventLog),
    i + k < length mains →
    Forall (λ trace, is_Some (attributes trace)) filtered_log →
    ∃ state',
      for_each (level_round mains reviews total) (seq i k)
        (players_level_endings, filtered_log) = Ok state'.
Proof.
  induction k as [|k IH]; intros i ple F Hlen Hids; [by eexists|].
  destruct (lookup_lt_is_Some_2 mains i) as [current Hcur]; [lia|].
  destruct (lookup_lt_is_Some_2 mains (i + 1)) as [next Hnext]; [lia|].
  destruct (level_round_returns mains reviews total ple F i next current)
    as (info & Hround); [done..|].
  cbn [seq for_each]. rewrite Hround. cbn [bind]. apply IH; [lia|].
  eapply Forall_sublist_of; [apply sublist_filter|done].
Qed.

Lemma level_rounds mains reviews total (k : nat) :
  NoDup mains →
  ∀ i (players_level_endings endings' : dict LevelInfo)
    (filtered_log log' : EventLog),
    i + k < length mains →
    players_level_endings.*1 = take i mains →
    Forall (λ kv, total_num_players kv.2 = total) players_level_endings →
    for_each (level_round mains reviews total) (seq i k)
      (players_level_endings, filtered_log) = Ok (endings', log') →
    endings'.*1 = take (i + k) mains
    ∧ Forall (λ kv, total_num_players kv.2 = total) endings'
    ∧ players_attributed endings' + length log'
      = players_attributed players_level_endings + length filtered_log
    ∧ log' `sublist_of` filtered_log.
Proof.
  intros Hnd.
  induction k as [|k IH]; intros i ple ple' F F' Hlen Hkeys Htot Hloop.
  { injection Hloop as <- <-. rewrite Nat.add_0_r. by split_and!. }
  cbn [seq for_each] in Hloop.
  destruct (level_round mains reviews total (ple, F) i)
    as [[ple1 F1]|] eqn:Hround; [|done].
  cbn [bind] in Hloop.
  apply level_round_inv in Hround
    as (next & current & info & Hnext & Hcur & -> & -> & Hnum & Htotal).
  assert (current ∉ ple.*1) as Hfresh.
  { rewrite Hkeys. intros (j & Hj & Hlt)%elem_of_take.
    pose proof (NoDup_lookup _ _ _ _ Hnd Hcur Hj). lia. }
  rewrite dict_set_fresh in Hloop by done.
  apply IH in Hloop as (Hkeys' & Htot' & Hsum & Hsub).
  - split_and!; [|done| |].
    + by replace (i + S k) with (S i + k) by lia.
    + rewrite Hsum. unfold players_attributed.
      rewrite sum_list_with_app. simpl. rewrite Hnum.
      pose proof (attributes_filter_apply_lengths F [next]). lia.
    + etrans; [exact Hsub|apply sublist_filter].
  - lia.
  - rewrite fmap_app, Hkeys. simpl. by rewrite (take_S_r _ _ _ Hcur).
  - apply Forall_app. split; [done|]. by constructor.
Qed.

Lemma progress_games (game : Game) :
  2 ≤ length (main_achievements game) →
  NoDup (main_achievements game)
  ∧ last (main_achievements game) = Some (end_achievement game).
Proof.
  destruct game; simpl; intros Hlen; try lia;
    (split; [apply (bool_decide_unpack _); by vm_compute|done]).
Qed.

Lemma unfinished_log_lacks_end (event_log : EventLog) (game : Game) :
  Forall (λ trace, has_activity [end_achievement game] trace = false)
    (unfinished_log event_log game).
Proof.
  apply Forall_forall. intros t Ht.
  unfold unfinished_log, filter_players_by_game_completion,
    attributes_filter_apply in Ht.
  apply list_elem_of_filter in Ht as [_ Ht].
  apply list_elem_of_filter in Ht as [Ht _]. done.
Qed.

(** C4: for a game with at least two main achievements, whenever the
    partitioner returns it has recorded one level for each of the main
    achievements but the last, each with [total_num_players] the size of
    the unfinished progress-only log, and the [level_num_players] of the
    recorded levels add up to that size; and it does return on every log
    whose traces have a case id. *)
Theorem divide_unfinished_players_by_levels_sum (game : Game)
    (event_log : EventLog) (reviews : dict PlayerStats) :
  2 ≤ length (main_achievements game) →
  (∀ players_level_endings,
     divide_unfinished_players_by_levels event_log game reviews
     = Ok players_level_endings →
     players_level_endings.*1
     = take (length (main_achievements game) - 1) (main_achievements game)
     ∧ Forall (λ kv, total_num_players kv.2
                     = length (unfinished_log event_log game))
         players_level_endings
     ∧ players_attributed players_level_endings
       = length (unfinished_log event_log game))
  ∧ (Forall (λ trace, is_Some (attributes trace)) event_log →
     ∃ players_level_endings,
       divide_unfinished_players_by_levels event_log game reviews
       = Ok players_level_endings).
Proof.
  intros HN. destruct (progress_games game HN) as [Hnd Hlast].
  unfold divide_unfinished_players_by_levels.
  fold (unfinished_log event_log game).
  set (mains := main_achievements game) in *.
  set (unfinished := unfinished_log event_log game).
  split.
  - intros ple Hret.
    replace (length mains - 1) with (S (length mains - 2)) in Hret by lia.
    rewrite seq_S, for_each_app in Hret.
    destruct (for_each _ (seq 0 (length mains - 2)) _)
      as [[ple1 F1]|] eqn:Hloop; [|done].
    cbn [bind for_each plus] in Hret.
    destruct (level_round _ _ _ _ _) as [[ple2 F2]|] eqn:Hround; [|done].
    cbn [bind fst] in Hret. injection Hret as <-.
    apply level_rounds in Hloop as (Hkeys & Htot & Hsum & Hsub);
      [|done|lia|done|constructor].
    apply level_round_inv in Hround
      as (next & current & info & Hnext & Hcur & -> & -> & Hnum & Htotal).
    assert (next = end_achievement game) as ->.
    { rewrite last_lookup in Hlast.
      replace (length mains - 2 + 1) with (pred (length mains)) in Hnext
        by lia.
      congruence. }
    assert (current ∉ ple1.*1) as Hfresh.
    { rewrite Hkeys. intros (j & Hj & Hlt)%elem_of_take.
      pose proof (NoDup_lookup _ _ _ _ Hnd Hcur Hj). lia. }
    rewrite dict_set_fresh by done. split_and!.
    + rewrite fmap_app, Hkeys. simpl.
      replace (length mains - 1) with (S (length mains - 2)) by lia.
      by rewrite (take_S_r _ _ _ Hcur).
    + apply Forall_app. split; [done|]. by constructor.
    + unfold players_attributed in *. rewrite sum_list_with_app. simpl.
      rewrite Hnum. unfold attributes_filter_apply. rewrite filter_all.
      * simpl in Hsum. lia.
      * eapply Forall_sublist_of; [exact Hsub|].
        apply unfinished_log_lacks_end.
  - intros Hids.
    destruct (level_rounds_total mains reviews (length unfinished)
                (length mains - 1) 0 [] unfinished) as [[ple F] ->].
    + lia.
    + eapply Forall_sublist_of; [|exact Hids].
      unfold unfinished, unfinished_log. etrans; apply sublist_filter.
    + by eexists.
Qed.

Lemma divide_unfinished_players_by_levels_sum_witness :
  ∃ players_level_endings,
    divide_unfinished_players_by_levels gris_players GRIS [] 
    = Ok players_level_endings
    ∧ players_level_endings.*1 = ["Red"; "Green"; "Blue"; "Yellow"]
    ∧ players_attributed players_level_endings = 2.
Proof.
  destruct (divide_unfinished_players_by_levels_sum GRIS gris_players [])
    as [Hsum Htotal]; [simpl; lia|].
  destruct Htotal as [ple Hret];
    [apply (bool_decide_unpack _); by vm_compute|].
  destruct (Hsum ple Hret) as (Hkeys & _ & Hplayers).
  exists ple. split_and!; [exact Hret|exact Hkeys|].
  rewrite Hplayers. by vm_compute.
Defined.

(** ** The scenarios of the specification *)

(** Scenario A: the first main achievement again where the third is
    due. *)
Example scenario_A :
  filter_incorrect_traces
    [mkTrace (Some "a") [mkEvent "Red" 1; mkEvent "Green" 2; mkEvent "Red" 3]]
    GRIS = Ok [].
Proof. by vm_compute. Qed.

(** Scenario B: three events at one timestamp are cheating, one event is
    not. *)
Example scenario_B :
  filter_cheating_players
    [mkTrace (Some "a") [mkEvent "x" 5; mkEvent "y" 5; mkEvent "z" 5];
     mkTrace (Some "b") [mkEvent "x" 5]] true
  = [mkTrace (Some "a") [mkEvent "x" 5; mkEvent "y" 5; mkEvent "z" 5]].
Proof. by vm_compute. Qed.

(** Scenario C, in small: of four unfinished players two stop after the
    first level, one after the second and one after the third. *)
Example scenario_C :
  (λ kv : string * LevelInfo, (kv.1, level_num_players kv.2))
  <$> default []
        (match divide_unfinished_players_by_levels
                 [mkTrace (Some "a") [mkEvent "Red" 1];
                  mkTrace (Some "b") [mkEvent "Red" 1];
                  mkTrace (Some "c") [mkEvent "Red" 1; mkEvent "Green" 2];
                  mkTrace (Some "d")
                    [mkEvent "Red" 1; mkEvent "Green" 2; mkEvent "Blue" 3]]
                 GRIS []
         with Ok endings => Some endings | Raise _ => None end)
  = [("Red", 2); ("Green", 1); ("Blue", 1); ("Yellow", 0)].
Proof. by vm_compute. Qed.

(** Scenario D: the event an hour after the end achievement goes, the
    events up to it stay. *)
Example scenario_D :
  filter_achievements_by_first_playthrough
    [mkTrace (Some "a")
       [mkEvent "Red" 100; mkEvent "The End" 200; mkEvent "Blue" 3800]]
    GRIS
  = Ok [mkTrace (Some "a") [mkEvent "Red" 100; mkEvent "The End" 200]].
Proof. by vm_compute. Qed.

(** * Further properties of the code *)

(** ** Log difference and the filters *)

Lemma log_difference_of_filter (P : Trace → Prop) `{!∀ t, Decision (P t)}
    (log : EventLog) :
  log_difference log (filter P log) = filter (λ trace, ¬ P trace) log.
Proof.
  rewrite log_difference_filter. apply filter_ext_iff. intros t Ht.
  rewrite list_elem_of_filter. tauto.
Qed.

(** X1: taking one difference after another is taking the difference with
    both logs at once; a second difference with the same log changes
    nothing; and the result never has more traces than the first log. *)
Theorem log_difference_composes (A B C : EventLog) :
  log_difference (log_difference A B) C = log_difference A (B ++ C)
  ∧ log_difference (log_difference A B) B = log_difference A B
  ∧ length (log_difference A B) ≤ length A.
Proof.
  rewrite !log_difference_filter. split_and!.
  - rewrite list_filter_filter. apply filter_ext_iff. intros t _.
    rewrite elem_of_app. tauto.
  - rewrite list_filter_filter. apply filter_ext_iff. intros t _. tauto.
  - apply length_filter.
Qed.

(** X2: the traces the cheat filter drops are got back by a difference:
    [log_difference(log, filter_cheating_players(log, c))] is
    [filter_cheating_players(log, not c)], as
    [compare_replayed_log_and_incorrect_log] relies on for its cheater
    ids. *)
Theorem log_difference_cheating_players (event_log : EventLog) (c : bool) :
  log_difference event_log (filter_cheating_players event_log c)
  = filter_cheating_players event_log (negb c).
Proof.
  rewrite !filter_cheating_players_filter, log_difference_of_filter.
  apply filter_ext_iff. intros t _.
  destruct (bool_decide (cheating t)), c; simpl; split; congruence.
Qed.

(** X3: the cheat filter is idempotent, and filtering its result for the
    other flag leaves nothing. *)
Theorem filter_cheating_players_idempotent (event_log : EventLog)
    (c : bool) :
  filter_cheating_players (filter_cheating_players event_log c) c
  = filter_cheating_players event_log c
  ∧ filter_cheating_players (filter_cheating_players event_log c) (negb c)
    = [].
Proof.
  rewrite !filter_cheating_players_filter. split.
  - apply list_filter_filter_l. done.
  - apply filter_none, Forall_forall.
    intros t [Ht _]%list_elem_of_filter. rewrite Ht. by destruct c.
Qed.

Lemma one_timestamp (evs : list Event) :
  size (list_to_set (time_timestamp <$> evs) : gset Z) = 1
  ↔ ∃ first rest, evs = first :: rest
      ∧ Forall (λ ev, time_timestamp ev = time_timestamp first) rest.
Proof.
  split.
  - intros Hsize. destruct evs as [|first rest].
    { vm_compute in Hsize. lia. }
    exists first, rest. split; [done|]. apply Forall_forall. intros ev Hev.
    apply (size_singleton_inv _ _ _ Hsize).
    + apply elem_of_list_to_set, list_elem_of_fmap. exists ev.
      split; [done|by right].
    + apply elem_of_list_to_set, list_elem_of_fmap. exists first.
      split; [done|left].
  - intros (first & rest & -> & Hall).
    assert (list_to_set (time_timestamp <$> first :: rest)
            = ({[time_timestamp first]} : gset Z)) as ->;
      [|apply size_singleton].
    apply set_eq. intros z.
    rewrite elem_of_list_to_set, list_elem_of_fmap, elem_of_singleton.
    rewrite Forall_forall in Hall. split.
    + intros (ev & -> & [->|Hev]%elem_of_cons); [done|by apply Hall].
    + intros ->. exists first. split; [done|left].
Qed.

(** X4: the cheat filter with [keep_cheating = True] keeps exactly the
    traces that have at least two events, all with the timestamp of the
    first; a trace with no event or one event is never among them. *)
Theorem filter_cheating_players_same_timestamp (event_log : EventLog)
    (trace : Trace) :
  trace ∈ filter_cheating_players event_log true
  ↔ trace ∈ event_log
    ∧ ∃ first second rest, events trace = first :: second :: rest
        ∧ Forall (λ ev, time_timestamp ev = time_timestamp first)
            (second :: rest).
Proof.
  rewrite filter_cheating_players_filter, list_elem_of_filter.
  rewrite bool_decide_eq_true. unfold cheating. rewrite one_timestamp.
  split.
  - intros [[(first & rest & Hevs & Hall) Hlen] Hin]. split; [done|].
    rewrite Hevs in Hlen. destruct rest as [|second rest]; simpl in Hlen;
      [lia|].
    by exists first, second, rest.
  - intros [Hin (first & second & rest & Hevs & Hall)].
    split_and!; [|rewrite Hevs; simpl; lia|done].
    by exists first, (second :: rest).
Qed.

(** ** The sequence validator, where it returns and where it raises *)

Lemma keep_loop_raise_inv {A} (g : A → result bool) (l acc : list A) e :
  keep_loop g l acc = Raise e → Exists (λ x, g x = Raise e) l.
Proof.
  unfold keep_loop. revert acc.
  induction l as [|x l IH]; intros acc Hr; [done|].
  cbn [for_each] in Hr. destruct (g x) as [b|e'] eqn:Hg; cbn [bind] in Hr.
  - apply Exists_cons_tl. destruct b; cbn [bind] in Hr; eapply IH, Hr.
  - apply Exists_cons_hd. congruence.
Qed.

(** X5: whenever the sequence validator returns, its result is the
    traces whose main-achievement events come in the order of
    [main_achievements] with pairwise different timestamps, in the order
    of the input. *)
Theorem filter_incorrect_traces_keeps_valid (event_log out : EventLog)
    (game : Game) :
  filter_incorrect_traces event_log game = Ok out →
  out `sublist_of` event_log
  ∧ ∀ trace, trace ∈ out ↔ trace ∈ event_log ∧ valid_trace game trace.
Proof.
  intros Hret. split.
  - rewrite (filter_incorrect_traces_returns _ _ _ Hret).
    apply sublist_filter.
  - by apply filter_incorrect_traces_keeps.
Qed.

Lemma filter_incorrect_traces_keeps_valid_witness :
  gris_in_order
  ∈ [gris_in_order]
  ↔ gris_in_order ∈ [gris_in_order; gris_finished_twice]
    ∧ valid_trace GRIS gris_in_order.
Proof.
  apply (proj2 (filter_incorrect_traces_keeps_valid
                  [gris_in_order; gris_finished_twice] [gris_in_order]
                  GRIS ltac:(by vm_compute))).
Defined.

Lemma main_achievements_NoDup (game : Game) :
  NoDup (main_achievements game).
Proof. destruct game; apply (bool_decide_unpack _); by vm_compute. Qed.

Lemma considered_length (mains : list string) (trace : list Event) :
  NoDup mains → NoDup (concept_name <$> trace) →
  length (considered mains trace) ≤ length mains.
Proof.
  intros Hmains Hnd.
  rewrite <- (length_fmap concept_name (considered mains trace)).
  apply submseteq_length, NoDup_submseteq.
  - eapply sublist_NoDup; [exact Hnd|].
    apply fmap_sublist, sublist_filter.
  - intros name (ev & -> & [Hin _]%list_elem_of_filter)%list_elem_of_fmap.
    exact Hin.
Qed.

(** X6: on a log in which no trace has the same activity twice, the
    sequence validator returns, for every game. *)
Theorem filter_incorrect_traces_returns_without_repeats
    (event_log : EventLog) (game : Game) :
  Forall (λ trace, NoDup (concept_name <$> events trace)) event_log →
  ∃ out, filter_incorrect_traces event_log game = Ok out.
Proof.
  intros Hall. apply filter_incorrect_traces_total.
  eapply Forall_impl; [exact Hall|]. intros t Hnd. simpl.
  apply considered_length; [apply main_achievements_NoDup|done].
Qed.

Lemma filter_incorrect_traces_returns_without_repeats_witness :
  ∃ out, filter_incorrect_traces gris_players GRIS = Ok out.
Proof.
  apply filter_incorrect_traces_returns_without_repeats.
  apply (bool_decide_unpack _). by vm_compute.
Defined.

Lemma scan_main_achievements_overrun mains count timestamps trace e :
  scan_main_achievements mains count timestamps trace = Raise e →
  length mains < count + length (considered mains trace).
Proof.
  intros Hraise. apply Nat.nle_gt. intros Hle.
  rewrite scan_main_achievements_considered in Hraise.
  destruct (scan_main_achievements_returns mains count timestamps
              (considered mains trace) Hle) as [d Hd].
  congruence.
Qed.

(** X7: the only exception of the sequence validator is [IndexError],
    and when it is raised some trace of the log has more events with a
    main achievement than the game has main achievements. *)
Theorem filter_incorrect_traces_raises_on_overrun (event_log : EventLog)
    (game : Game) (e : exn) :
  filter_incorrect_traces event_log game = Raise e →
  e = IndexError
  ∧ Exists (λ trace,
              length (main_achievements game)
              < length (considered (main_achievements game) (events trace)))
      event_log.
Proof.
  rewrite filter_incorrect_traces_keep_loop.
  intros Hex%keep_loop_raise_inv.
  apply Exists_exists in Hex as (t & Ht & Hg).
  destruct (scan_main_achievements _ _ _ _) as [d|e0] eqn:Hs; [done|].
  simpl in Hg. injection Hg as ->. split.
  - by eapply scan_main_achievements_only_IndexError.
  - apply Exists_exists. exists t. split; [done|].
    by apply scan_main_achievements_overrun in Hs.
Qed.

Lemma filter_incorrect_traces_raises_on_overrun_witness :
  IndexError = IndexError
  ∧ Exists (λ trace,
              length (main_achievements GRIS)
              < length (considered (main_achievements GRIS) (events trace)))
      [gris_in_order; gris_repeated].
Proof.
  apply (filter_incorrect_traces_raises_on_overrun
           [gris_in_order; gris_repeated] GRIS IndexError).
  by vm_compute.
Defined.

(** X8: the sequence validator is idempotent: run on its own result, it
    returns that result. *)
Theorem filter_incorrect_traces_idempotent (event_log out : EventLog)
    (game : Game) :
  filter_incorrect_traces event_log game = Ok out →
  filter_incorrect_traces out game = Ok out.
Proof.
  intros Hret%filter_incorrect_traces_returns.
  rewrite filter_incorrect_traces_keep_loop, keep_loop_ok.
  - simpl. f_equal. apply filter_all, Forall_forall. intros t Ht.
    rewrite Hret in Ht. apply list_elem_of_filter in Ht as [-> _]. done.
  - apply Forall_forall. intros t Ht.
    rewrite Hret in Ht. apply list_elem_of_filter in Ht as [-> _].
    by eexists.
Qed.

Lemma filter_incorrect_traces_idempotent_witness :
  filter_incorrect_traces [gris_in_order] GRIS = Ok [gris_in_order].
Proof.
  apply (filter_incorrect_traces_idempotent
           [gris_in_order; gris_finished_twice] [gris_in_order] GRIS).
  by vm_compute.
Defined.

(** X9: the traces the sequence validator drops are got back by a
    difference: when it returns [correct_log],
    [log_difference(event_log, correct_log)] holds exactly the traces of
    the log that break the order, and the two logs together have the
    length of the input. *)
Theorem log_difference_incorrect_traces (event_log correct_log : EventLog)
    (game : Game) :
  filter_incorrect_traces event_log game = Ok correct_log →
  (∀ trace, trace ∈ log_difference event_log correct_log
            ↔ trace ∈ event_log ∧ ¬ valid_trace game trace)
  ∧ length correct_log + length (log_difference event_log correct_log)
    = length event_log.
Proof.
  intros Hret%filter_incorrect_traces_returns. subst correct_log.
  rewrite log_difference_of_filter. split.
  - intros t. rewrite list_elem_of_filter, scan_valid_trace. tauto.
  - rewrite <- length_app. apply Permutation_length.
    apply filter_app_complement.
Qed.

Lemma log_difference_incorrect_traces_witness :
  length [gris_in_order]
  + length (log_difference [gris_in_order; gris_finished_twice]
              [gris_in_order])
  = length [gris_in_order; gris_finished_twice].
Proof.
  apply (proj2 (log_difference_incorrect_traces
                  [gris_in_order; gris_finished_twice] [gris_in_order]
                  GRIS ltac:(by vm_compute))).
Defined.

(** ** The fitness-based filter and the difference *)

Lemma elem_of_fit_traces (event_log : EventLog)
    (replayed_traces : list ReplayedTrace) (trace : Trace) :
  trace ∈ fit_traces event_log replayed_traces
  ↔ ∃ i replayed, event_log !! i = Some trace
      ∧ replayed_traces !! i = Some replayed
      ∧ trace_is_fit replayed = true.
Proof.
  unfold fit_traces. rewrite list_elem_of_fmap. split.
  - intros ([t' r] & -> & [Hfit Hin]%list_elem_of_filter).
    apply list_elem_of_lookup in Hin as [i Hi].
    apply lookup_zip_with_Some in Hi as (t0 & r0 & [= <- <-] & Ht & Hr).
    by exists i, r.
  - intros (i & r & Ht & Hr & Hfit). exists (trace, r). split; [done|].
    apply list_elem_of_filter. split; [done|].
    apply list_elem_of_lookup. exists i.
    apply lookup_zip_with_Some. by exists trace, r.
Qed.

Lemma unfit_traces_filter (Q : Trace → Prop) `{!∀ t, Decision (Q t)}
    (event_log : EventLog) (replayed_traces : list ReplayedTrace) :
  length event_log ≤ length replayed_traces →
  (∀ i trace replayed,
     event_log !! i = Some trace → replayed_traces !! i = Some replayed →
     Q trace ↔ trace_is_fit replayed = false) →
  unfit_traces event_log replayed_traces = filter Q event_log.
Proof.
  unfold unfit_traces. revert replayed_traces.
  induction event_log as [|t l IH]; intros [|r rs] Hlen HQ; simpl in *;
    [done|done|lia|].
  rewrite !filter_cons. simpl.
  rewrite <- (IH rs); [|lia|intros i; apply (HQ (S i))].
  pose proof (HQ 0 t r eq_refl eq_refl) as H0.
  destruct (decide (trace_is_fit r = false)), (decide (Q t)); tauto.
Qed.

(** X10: when the fitness filter returns [fit_log] on a log without two
    equal traces, [log_difference(event_log, fit_log)] is the traces at
    the positions whose replay result is not fit, in order. *)
Theorem log_difference_unfit_traces (event_log fit_log : EventLog)
    (replayed_traces : list ReplayedTrace) :
  NoDup event_log →
  filter_log_by_trace_fitness event_log replayed_traces = Ok fit_log →
  log_difference event_log fit_log
  = unfit_traces event_log replayed_traces.
Proof.
  intros Hnd Hret.
  destruct (decide (length event_log ≤ length replayed_traces))
    as [Hlen|Hlen].
  2:{ rewrite filter_log_by_trace_fitness_short in Hret by lia. done. }
  rewrite filter_log_by_trace_fitness_ok in Hret by done.
  injection Hret as <-. rewrite log_difference_filter. symmetry.
  apply unfit_traces_filter; [done|]. intros i t r Ht Hr.
  rewrite elem_of_fit_traces. split.
  - intros Hno. destruct (trace_is_fit r) eqn:Hfit; [|done].
    destruct Hno. by exists i, r.
  - intros Hfit (j & r' & Hj & Hr' & Hfit').
    pose proof (NoDup_lookup _ _ _ _ Hnd Ht Hj). subst j. congruence.
Qed.

Lemma log_difference_unfit_traces_witness :
  log_difference [gris_in_order; gris_repeated] [gris_repeated]
  = unfit_traces [gris_in_order; gris_repeated]
      [mkReplayedTrace false; mkReplayedTrace true].
Proof.
  apply log_difference_unfit_traces.
  - apply (bool_decide_unpack _). by vm_compute.
  - by vm_compute.
Defined.

(** With two equal traces of which one is fit, the difference loses the
    other too. *)
Example log_difference_unfit_traces_duplicate :
  log_difference [gris_in_order; gris_in_order] [gris_in_order] = []
  ∧ unfit_traces [gris_in_order; gris_in_order]
      [mkReplayedTrace true; mkReplayedTrace false] = [gris_in_order].
Proof. split; by vm_compute. Qed.

(** ** The review-sentiment filter *)

Lemma dict_get_raises {V} (d : dict V) (k : string) (e : exn) :
  dict_get d k = Raise e ↔ e = KeyError ∧ k ∉ d.*1.
Proof.
  induction d as [|[k' v] d IH]; simpl.
  - split; [intros [= <-]|intros [-> _]]; [|done].
    split; [done|apply not_elem_of_nil].
  - destruct (String.eqb k' k) eqn:Hk.
    + apply String.eqb_eq in Hk. subst k'. split; [done|].
      intros [_ Hnot]. destruct Hnot. left.
    + apply String.eqb_neq in Hk. rewrite IH, not_elem_of_cons.
      naive_solver.
Qed.

Lemma review_of_body (player_stats : dict PlayerStats) (trace : Trace) k :
  (case_id ←! attr (attributes trace);
   stats ←! dict_get player_stats case_id;
   Ok (Bool.eqb (left_positive_review stats) k))
  = match review_of player_stats trace with
    | Some flag => Ok (Bool.eqb flag k)
    | None => Raise KeyError
    end.
Proof.
  unfold review_of. destruct (attributes trace) as [c|]; [|done].
  cbn [attr bind].
  destruct (dict_get player_stats c) as [st|e] eqn:Hget; [done|].
  apply dict_get_raises in Hget as [-> _]. done.
Qed.

(** X11: when every trace has a case id with an entry in the stats file,
    the review filter returns, in order, exactly the traces whose entry
    has [left_positive_review] equal to [keep_positive]; the results for
    [True] and [False] together are the log, up to order. *)
Theorem filter_players_by_reviews_keeps (event_log : EventLog)
    (player_stats : dict PlayerStats) :
  Forall (λ trace, is_Some (review_of player_stats trace)) event_log →
  (∀ keep_positive,
     filter_players_by_reviews event_log player_stats keep_positive
     = Ok (filter (λ trace, review_of player_stats trace = Some keep_positive)
             event_log))
  ∧ filter (λ trace, review_of player_stats trace = Some true) event_log
    ++ filter (λ trace, review_of player_stats trace = Some false) event_log
    ≡ₚ event_log.
Proof.
  intros Hall. split.
  - intros k. rewrite filter_players_by_reviews_keep_loop, keep_loop_ok.
    + simpl. f_equal. apply filter_ext_iff. intros t Ht.
      rewrite review_of_body.
      destruct (review_of player_stats t) as [[] |], k; simpl;
        split; congruence.
    + eapply Forall_impl; [exact Hall|]. intros t [flag Hflag].
      rewrite review_of_body, Hflag. by eexists.
  - rewrite <- (filter_app_complement
                  (λ trace, review_of player_stats trace = Some true)
                  event_log) at 3.
    apply Permutation_app; [done|].
    erewrite filter_ext_iff; [done|]. intros t Ht. simpl.
    rewrite Forall_forall in Hall. destruct (Hall t Ht) as [[] ->];
      split; congruence.
Qed.

Lemma filter_players_by_reviews_keeps_witness :
  filter_players_by_reviews [gris_in_order; gris_repeated]
    reviewed_players false
  = Ok [gris_repeated].
Proof.
  apply (proj1 (filter_players_by_reviews_keeps
                  [gris_in_order; gris_repeated] reviewed_players
                  ltac:(apply (bool_decide_unpack _); by vm_compute))
           false).
Defined.

(** X12: the review filter raises exactly when some trace has no case id
    or a case id without entry in the stats file, wherever in the log
    that trace is; the exception is [KeyError], and no trace is skipped
    instead. *)
Theorem filter_players_by_reviews_raises (event_log : EventLog)
    (player_stats : dict PlayerStats) (keep_positive : bool) (e : exn) :
  filter_players_by_reviews event_log player_stats keep_positive = Raise e
  ↔ e = KeyError
    ∧ ∃ trace, trace ∈ event_log
        ∧ (attributes trace = None
           ∨ ∃ case_id, attributes trace = Some case_id
               ∧ case_id ∉ player_stats.*1).
Proof.
  rewrite filter_players_by_reviews_keep_loop.
  assert (∀ t, review_of player_stats t = None
               ↔ attributes t = None
                 ∨ ∃ c, attributes t = Some c ∧ c ∉ player_stats.*1)
    as Hnone.
  { intros t. unfold review_of. destruct (attributes t) as [c|].
    - destruct (dict_get player_stats c) as [st|e'] eqn:Hget.
      + split; [done|]. intros [|(c' & [= <-] & Hnot)]; [done|].
        assert (dict_get player_stats c = Raise KeyError) as Hr
          by (by apply dict_get_raises).
        congruence.
      + apply dict_get_raises in Hget as [_ Hnot]. split; [|done].
        intros _. right. by exists c.
    - split; [by left|done]. }
  split.
  - intros Hex%keep_loop_raise_inv.
    apply Exists_exists in Hex as (t & Ht & Hg).
    rewrite review_of_body in Hg.
    destruct (review_of player_stats t) as [flag|] eqn:Hflag; [done|].
    injection Hg as <-. split; [done|]. exists t. split; [done|].
    by apply Hnone.
  - intros [-> (t & Ht & Hbad)]. apply keep_loop_raises.
    + intros x e' _. rewrite review_of_body.
      destruct (review_of player_stats x); [done|by intros [= <-]].
    + apply Exists_exists. exists t. split; [done|].
      rewrite review_of_body. apply Hnone in Hbad. by rewrite Hbad.
Qed.

(** ** Case ids *)






(** ** The achievement-window filter and case ids *)



Example filter_achievements_by_level_per_aspera :
  filter_achievements_by_level [per_aspera_level] "Terraformer IV"
    "Terraformer V"
  = [mkTrace None
       [mkEvent "Terraformer IV" 2; mkEvent "Off The Hook" 3;
        mkEvent "Terraformer V" 5]].
Proof. by vm_compute. Qed.

(** ** The first-playthrough truncator, again *)

Lemma filter_achievements_by_first_playthrough_fmap (game : Game)
    (event_log : EventLog) :
  NoDup (attributes <$> event_log) →
  Forall (finished game) event_log →
  filter_achievements_by_first_playthrough event_log game
  = Ok (first_playthrough game <$> event_log).
Proof.
  intros Hnd Hfin.
  assert (Forall (λ trace, events trace = [] ∨ finished game trace)
            event_log) as Hall.
  { eapply Forall_impl; [exact Hfin|]. intros t Ht. by right. }
  assert (Forall has_case (to_event_stream event_log)) as Hcases.
  { apply Forall_forall.
    intros x (t & Ht & Hc & Hev)%elem_of_to_event_stream.
    rewrite Forall_forall in Hfin. destruct (Hfin t Ht) as [Hattr _].
    unfold has_case. by rewrite Hc. }
  destruct (record_end_timestamps_total game _ Hcases) as [m Hm].
  pose proof (finished_stream _ _ _ Hall Hm) as Hknown.
  unfold filter_achievements_by_first_playthrough.
  rewrite Hm. cbn [bind]. rewrite filter_raising_ok.
  2:{ eapply Forall_impl; [exact Hknown|].
      intros x (c & Hc & Hsome). by eapply before_end_returns. }
  cbn [bind]. rewrite filter_to_event_stream.
  rewrite (Forall_fmap_ext_1 _ (first_playthrough game)).
  - apply to_event_log_roundtrip.
    + rewrite <- list_fmap_compose. done.
    + apply Forall_fmap. eapply Forall_impl; [exact Hfin|].
      intros t [Hattr Hend]. split; [done|].
      destruct (finished_last_end game t Hend) as (e_last & Hlast & Hin).
      intros Hnil.
      assert (e_last ∈ events (first_playthrough game t)) as Hkept.
      { apply (elem_of_first_playthrough game t e_last); [done|].
        split; [done|lia]. }
      rewrite Hnil in Hkept. by apply not_elem_of_nil in Hkept.
  - apply Forall_forall. intros t Ht.
    rewrite Forall_forall in Hfin. destruct (Hfin t Ht) as [[c Hc] Hend].
    unfold first_playthrough. f_equal.
    apply filter_ext_iff. intros ev _.
    rewrite before_end_true. simpl. rewrite Hc.
    rewrite <- (last_end_cutoff game c event_log t) by done.
    rewrite <- (record_end_timestamps_lookup _ _ _ Hm).
    destruct (m !! c) as [te|] eqn:Hmc; simpl.
    + rewrite bool_decide_eq_true. split.
      * intros (c' & te' & [= <-] & Hm' & Hle). congruence.
      * intros Hle. by exists c, te.
    + split; [|done]. intros (c' & te' & [= <-] & Hm' & _). congruence.
Qed.

Lemma first_playthrough_events game (trace : Trace) e_last :
  last (filter (is_end game) (events trace)) = Some e_last →
  events (first_playthrough game trace)
  = filter (λ ev, (time_timestamp ev ≤ time_timestamp e_last)%Z)
      (events trace).
Proof.
  intros Hlast. unfold first_playthrough, cutoff. rewrite Hlast. simpl.
  apply filter_ext_iff. intros ev _. by rewrite bool_decide_eq_true.
Qed.

Lemma first_playthrough_last_end game (trace : Trace) e_last :
  last (filter (is_end game) (events trace)) = Some e_last →
  last (filter (is_end game) (events (first_playthrough game trace)))
  = Some e_last.
Proof.
  intros Hlast. rewrite (first_playthrough_events _ _ _ Hlast).
  rewrite list_filter_filter.
  rewrite (filter_ext_iff _
             (λ ev, (time_timestamp ev ≤ time_timestamp e_last)%Z
                    ∧ is_end game ev)) by (intros ev _; tauto).
  rewrite <- list_filter_filter.
  apply last_Some in Hlast as [l' ->].
  rewrite filter_app, filter_cons, filter_nil.
  destruct (decide _) as [_|Hn]; [apply last_snoc|lia].
Qed.

Lemma first_playthrough_idempotent game (trace : Trace) :
  Exists (is_end game) (events trace) →
  first_playthrough game (first_playthrough game trace)
  = first_playthrough game trace.
Proof.
  intros Hend.
  destruct (finished_last_end game trace Hend) as (e_last & Hlast & _).
  pose proof (first_playthrough_last_end _ _ _ Hlast) as Hlast'.
  destruct (first_playthrough game trace) as [a evs] eqn:Hfp.
  assert (evs = events (first_playthrough game trace)) as Hevs
    by (by rewrite Hfp).
  unfold first_playthrough at 1. unfold cutoff. rewrite Hlast'. simpl.
  f_equal. rewrite Hevs at 2. rewrite Hevs.
  rewrite (first_playthrough_events _ _ _ Hlast).
  rewrite list_filter_filter. apply filter_ext_iff. intros ev _.
  rewrite bool_decide_eq_true. tauto.
Qed.

Lemma first_playthrough_finished game (trace : Trace) :
  finished game trace → finished game (first_playthrough game trace).
Proof.
  intros [Hattr Hend]. split; [done|].
  destruct (finished_last_end game trace Hend) as (e_last & Hlast & _).
  apply first_playthrough_last_end, last_Some_elem_of in Hlast.
  apply list_elem_of_filter in Hlast as [He Hin].
  apply Exists_exists. by exists e_last.
Qed.

(** X15: on a log whose traces have distinct case ids and all contain
    the end achievement, the truncator returns a log that again meets
    this precondition, and truncating that log once more returns it
    unchanged. *)
Theorem filter_achievements_by_first_playthrough_idempotent (game : Game)
    (event_log : EventLog) :
  NoDup (attributes <$> event_log) →
  Forall (finished game) event_log →
  ∃ filtered_log,
    filter_achievements_by_first_playthrough event_log game
    = Ok filtered_log
    ∧ NoDup (attributes <$> filtered_log)
    ∧ Forall (finished game) filtered_log
    ∧ filter_achievements_by_first_playthrough filtered_log game
      = Ok filtered_log.
Proof.
  intros Hnd Hfin. exists (first_playthrough game <$> event_log).
  assert (NoDup (attributes <$> (first_playthrough game <$> event_log)))
    as Hnd' by (by rewrite <- list_fmap_compose).
  assert (Forall (finished game) (first_playthrough game <$> event_log))
    as Hfin'.
  { apply Forall_fmap. eapply Forall_impl; [exact Hfin|].
    intros t. apply first_playthrough_finished. }
  split_and!; [|done..|].
  - by apply filter_achievements_by_first_playthrough_fmap.
  - rewrite filter_achievements_by_first_playthrough_fmap by done.
    f_equal. rewrite <- list_fmap_compose.
    apply Forall_fmap_ext_1. eapply Forall_impl; [exact Hfin|].
    intros t [_ Hend]. by apply first_playthrough_idempotent.
Qed.

Lemma filter_achievements_by_first_playthrough_idempotent_witness :
  ∃ filtered_log,
    filter_achievements_by_first_playthrough [gris_finished_twice] GRIS
    = Ok filtered_log
    ∧ filter_achievements_by_first_playthrough filtered_log GRIS
      = Ok filtered_log.
Proof.
  destruct (filter_achievements_by_first_playthrough_idempotent GRIS
              [gris_finished_twice]
              ltac:(apply (bool_decide_unpack _); by vm_compute)
              ltac:(apply (bool_decide_unpack _); by vm_compute))
    as (out & Hout & _ & _ & Hagain).
  by exists out.
Defined.

Lemma filter_le_prefix (te : Z) (evs : list Event) :
  StronglySorted (λ a b, (time_timestamp a ≤ time_timestamp b)%Z) evs →
  filter (λ ev, (time_timestamp ev ≤ te)%Z) evs `prefix_of` evs.
Proof.
  induction evs as [|ev evs IH]; intros Hsorted; [done|].
  apply StronglySorted_cons in Hsorted as [Hle Hsorted].
  rewrite filter_cons. destruct (decide _) as [Hev|Hev].
  - apply prefix_cons, IH, Hsorted.
  - rewrite filter_none; [apply prefix_nil|].
    eapply Forall_impl; [exact Hle|]. intros ev' Hev'. simpl in *. lia.
Qed.

(** X16: when moreover the events of every trace are in the order of
    their timestamps, each trace of the result is a prefix of the input
    trace at its position: the truncator only cuts the end of a
    trace. *)
Theorem filter_achievements_by_first_playthrough_prefix (game : Game)
    (event_log : EventLog) :
  NoDup (attributes <$> event_log) →
  Forall (finished game) event_log →
  Forall by_time event_log →
  ∃ filtered_log,
    filter_achievements_by_first_playthrough event_log game
    = Ok filtered_log
    ∧ Forall2 (λ out trace, attributes out = attributes trace
                            ∧ events out `prefix_of` events trace)
        filtered_log event_log.
Proof.
  intros Hnd Hfin Hsorted. exists (first_playthrough game <$> event_log).
  split; [by apply filter_achievements_by_first_playthrough_fmap|].
  apply Forall2_fmap_l, Forall_Forall2_diag, Forall_forall.
  intros t Ht.
  change (attributes (first_playthrough game t) = attributes t
          ∧ events (first_playthrough game t) `prefix_of` events t).
  split; [done|]. rewrite Forall_forall in Hfin, Hsorted.
  destruct (Hfin t Ht) as [_ Hend].
  destruct (finished_last_end game t Hend) as (e_last & Hlast & _).
  rewrite (first_playthrough_events _ _ _ Hlast).
  apply filter_le_prefix, Hsorted, Ht.
Qed.

Lemma filter_achievements_by_first_playthrough_prefix_witness :
  ∃ filtered_log,
    filter_achievements_by_first_playthrough [gris_finished] GRIS
    = Ok filtered_log
    ∧ Forall2 (λ out trace, attributes out = attributes trace
                            ∧ events out `prefix_of` events trace)
        filtered_log [gris_finished].
Proof.
  apply filter_achievements_by_first_playthrough_prefix.
  - apply (bool_decide_unpack _). by vm_compute.
  - apply (bool_decide_unpack _). by vm_compute.
  - constructor; [|constructor]. unfold by_time. simpl.
    repeat (apply StronglySorted_cons; split;
            [repeat constructor; simpl; lia|]).
    constructor.
Defined.

(** ** The levels of the partitioner *)

Lemma level_round_inv_full mains reviews total
    (players_level_endings endings' : dict LevelInfo)
    (filtered_log log' : EventLog) i :
  level_round mains reviews total (players_level_endings, filtered_log) i
  = Ok (endings', log') →
  ∃ next current case_ids,
    mains !! (i + 1) = Some next ∧ mains !! i = Some current
    ∧ get_case_ids (attributes_filter_apply filtered_log [next] false)
      = Ok case_ids
    ∧ endings'
      = dict_set players_level_endings current
          (level_info_of reviews total
             (attributes_filter_apply filtered_log [next] false) case_ids)
    ∧ log' = attributes_filter_apply filtered_log [next] true.
Proof.
  unfold level_round, index.
  destruct (mains !! (i + 1)) as [next|]; [|done]. cbn [bind].
  destruct (get_case_ids _) as [ids|] eqn:Hids; [|done]. cbn [bind].
  destruct (mains !! i) as [current|]; [|done]. cbn [bind].
  rewrite log_difference_level_log. intros [= <- <-].
  by eexists next, current, ids.
Qed.

Lemma reached_S mains i next (trace : Trace) :
  mains !! (i + 1) = Some next →
  reached mains (S i) trace
  ↔ has_activity [next] trace = true ∧ reached mains i trace.
Proof.
  intros Hnext. unfold reached.
  rewrite (take_S_r _ _ next)
    by (rewrite lookup_drop; by replace (1 + i) with (i + 1) by lia).
  rewrite Forall_app, Forall_singleton. tauto.
Qed.

Lemma level_rounds_levels mains reviews total (unfinished : EventLog)
    (k : nat) :
  NoDup mains →
  ∀ i (players_level_endings endings' : dict LevelInfo) (log' : EventLog),
    i + k < length mains →
    players_level_endings.*1 = take i mains →
    for_each (level_round mains reviews total) (seq i k)
      (players_level_endings, filter (reached mains i) unfinished)
    = Ok (endings', log') →
    log' = filter (reached mains (i + k)) unfinished
    ∧ (∀ j, j < i → endings' !! j = players_level_endings !! j)
    ∧ ∀ j, i ≤ j < i + k →
        ∃ current next case_ids,
          mains !! j = Some current ∧ mains !! (j + 1) = Some next
          ∧ get_case_ids (level_players mains unfinished j next)
            = Ok case_ids
          ∧ endings' !! j
            = Some (current,
                    level_info_of reviews total
                      (level_players mains unfinished j next) case_ids).
Proof.
  intros Hnd. induction k as [|k IH]; intros i ple ple' F' Hlen Hkeys Hloop.
  { injection Hloop as <- <-. rewrite Nat.add_0_r.
    split_and!; [done..|]. intros j Hj. lia. }
  cbn [seq for_each] in Hloop.
  destruct (level_round mains reviews total
              (ple, filter (reached mains i) unfinished) i)
    as [[ple1 F1]|] eqn:Hround; [|done].
  cbn [bind] in Hloop.
  apply level_round_inv_full in Hround
    as (next & current & ids & Hnext & Hcur & Hids & -> & ->).
  assert (attributes_filter_apply (filter (reached mains i) unfinished)
            [next] false = level_players mains unfinished i next) as Hlevel.
  { unfold attributes_filter_apply, level_players.
    apply list_filter_filter. }
  assert (attributes_filter_apply (filter (reached mains i) unfinished)
            [next] true = filter (reached mains (S i)) unfinished) as Hrest.
  { unfold attributes_filter_apply. rewrite list_filter_filter.
    apply filter_ext_iff. intros t _. by rewrite (reached_S _ _ next). }
  rewrite Hlevel in Hids, Hloop. rewrite Hrest in Hloop.
  assert (current ∉ ple.*1) as Hfresh.
  { rewrite Hkeys. intros (j & Hj & Hlt)%elem_of_take.
    pose proof (NoDup_lookup _ _ _ _ Hnd Hcur Hj). lia. }
  assert (length ple = i) as Hple.
  { rewrite <- (length_fmap fst), Hkeys, length_take_le; [done|lia]. }
  rewrite dict_set_fresh in Hloop by done.
  apply IH in Hloop as (Hlog & Hold & Hnew).
  - split_and!.
    + by replace (i + S k) with (S i + k) by lia.
    + intros j Hj. rewrite Hold by lia. apply lookup_app_l. lia.
    + intros j Hj. destruct (decide (j = i)) as [->|Hne].
      * exists current, next, ids. split_and!; [done..|].
        rewrite Hold by lia. rewrite lookup_app_r by lia.
        by rewrite Hple, Nat.sub_diag.
      * apply Hnew. lia.
  - lia.
  - rewrite fmap_app, Hkeys. simpl. by rewrite (take_S_r _ _ _ Hcur).
Qed.

Lemma divide_levels (game : Game) (event_log : EventLog)
    (reviews : dict PlayerStats) (players_level_endings : dict LevelInfo) :
  divide_unfinished_players_by_levels event_log game reviews
  = Ok players_level_endings →
  ∀ i, i + 1 < length (main_achievements game) →
    ∃ current next case_ids,
      main_achievements game !! i = Some current
      ∧ main_achievements game !! (i + 1) = Some next
      ∧ get_case_ids
          (level_players (main_achievements game)
             (unfinished_log event_log game) i next) = Ok case_ids
      ∧ players_level_endings !! i
        = Some (current,
                level_info_of reviews
                  (length (unfinished_log event_log game))
                  (level_players (main_achievements game)
                     (unfinished_log event_log game) i next) case_ids).
Proof.
  unfold divide_unfinished_players_by_levels.
  fold (unfinished_log event_log game).
  set (mains := main_achievements game).
  set (unfinished := unfinished_log event_log game).
  intros Hret i Hi.
  destruct (for_each _ _ _) as [[ple F]|] eqn:Hloop; [|done].
  cbn [bind fst] in Hret. injection Hret as <-.
  assert (unfinished = filter (reached mains 0) unfinished) as Hstart.
  { symmetry. apply filter_all, Forall_forall. intros t _. constructor. }
  rewrite Hstart in Hloop at 2.
  apply level_rounds_levels in Hloop as (_ & _ & Hnew);
    [|apply main_achievements_NoDup|lia|done].
  apply Hnew. lia.
Qed.

(** X17: whenever the partitioner returns, the level it records at
    position [i], under the key [main_achievements[i]], counts the traces
    of the unfinished progress-only log that have every main achievement
    from index 1 to index [i] and lack the one at index [i + 1]; the first
    main achievement itself is never looked at. *)
Theorem divide_unfinished_players_by_levels_counts (game : Game)
    (event_log : EventLog) (reviews : dict PlayerStats)
    (players_level_endings : dict LevelInfo) :
  divide_unfinished_players_by_levels event_log game reviews
  = Ok players_level_endings →
  ∀ i, i + 1 < length (main_achievements game) →
    ∃ current next level_info,
      main_achievements game !! i = Some current
      ∧ main_achievements game !! (i + 1) = Some next
      ∧ players_level_endings !! i = Some (current, level_info)
      ∧ level_num_players level_info
        = length (level_players (main_achievements game)
                    (unfinished_log event_log game) i next).
Proof.
  intros Hret i Hi.
  destruct (divide_levels _ _ _ _ Hret i Hi)
    as (current & next & ids & Hcur & Hnext & _ & Hlevel).
  by eexists current, next, _.
Qed.

Lemma divide_unfinished_players_by_levels_counts_witness :
  ∃ current next level_info,
    main_achievements GRIS !! 1 = Some current
    ∧ main_achievements GRIS !! 2 = Some next
    ∧ [("Red", mkLevelInfo 1 2 (0, 0) []);
       ("Green", mkLevelInfo 1 2 (0, 0) []);
       ("Blue", mkLevelInfo 0 2 (0, 0) []);
       ("Yellow", mkLevelInfo 0 2 (0, 0) [])] !! 1
      = Some (current, level_info)
    ∧ level_num_players level_info
      = length (level_players (main_achievements GRIS)
                  (unfinished_log gris_skipped_first GRIS) 1 next).
Proof.
  apply (divide_unfinished_players_by_levels_counts GRIS
           gris_skipped_first []).
  - by vm_compute.
  - simpl. lia.
Defined.



(** ** The table of games *)

(** X19: no two games have the same id; the main achievements of a game
    are pairwise different; and a game that has main achievements has at
    least five, has an end achievement, and its end achievement is the
    last of its main achievements. *)
Theorem game_table (game : Game) :
  (∀ other, id game = id other → game = other)
  ∧ NoDup (main_achievements game)
  ∧ (main_achievements game ≠ [] →
     5 ≤ length (main_achievements game)
     ∧ end_achievement game ≠ EmptyString
     ∧ last (main_achievements game) = Some (end_achievement game)).
Proof.
  split_and!.
  - intros other. destruct game, other; simpl; intros Hid; try done.
  - apply main_achievements_NoDup.
  - destruct game; simpl; intros Hne; try done; split_and!; try done; lia.
Qed.

Lemma game_table_witness :
  5 ≤ length (main_achievements WITCHER_3)
  ∧ end_achievement WITCHER_3 ≠ EmptyString
  ∧ last (main_achievements WITCHER_3) = Some (end_achievement WITCHER_3).
Proof.
  apply (proj2 (proj2 (game_table WITCHER_3))). done.
Defined.

(** ** The scraper *)

Lemma remove_commas_comma_free (name : string) :
  comma_free (remove_commas name).
Proof.
  unfold comma_free. induction name as [|c rest IH]; simpl.
  - apply not_elem_of_nil.
  - destruct (Ascii.eqb c ",") eqn:Hc; [done|]. simpl.
    apply not_elem_of_cons. split; [|done].
    intros <-. by rewrite Ascii.eqb_refl in Hc.
Qed.

Lemma remove_commas_id (name : string) :
  comma_free name → remove_commas name = name.
Proof.
  unfold comma_free. induction name as [|c rest IH]; simpl; [done|].
  intros [Hc Hrest]%not_elem_of_cons.
  destruct (Ascii.eqb c ",") eqn:Heq.
  - apply Ascii.eqb_eq in Heq. congruence.
  - by rewrite IH.
Qed.

Lemma get_game_achievements_loop (schema : list SchemaAchievement)
    (achievements : gmap string string) k :
  foldl (λ achievements achievement,
           <[schema_name achievement :=
               remove_commas (displayName achievement)]> achievements)
        achievements schema !! k
  = match last (filter (λ a, schema_name a = k) schema) with
    | Some a => Some (remove_commas (displayName a))
    | None => achievements !! k
    end.
Proof.
  revert achievements.
  induction schema as [|a schema IH] using rev_ind; intros achievements;
    [done|].
  rewrite foldl_app, filter_app, filter_cons, filter_nil. simpl.
  destruct (decide (schema_name a = k)) as [Hk|Hk].
  - rewrite last_snoc, Hk. apply lookup_insert_eq.
  - rewrite lookup_insert_ne, app_nil_r by done. apply IH.
Qed.

(** X20: after [_get_game_achievements] on an [ok] response, starting
    from the empty dict, every achievement of the schema has an entry
    under its name; every entry is the display name of the last schema
    achievement of that name with its commas taken out, so no stored
    name has a comma; and a display name without comma is stored as it
    is. *)
Theorem get_game_achievements_comma_free (schema : list SchemaAchievement) :
  (∀ a, a ∈ schema →
     is_Some (_get_game_achievements ∅ (Some schema) !! schema_name a))
  ∧ (∀ k name,
       _get_game_achievements ∅ (Some schema) !! k = Some name →
       comma_free name
       ∧ ∃ a, last (filter (λ a, schema_name a = k) schema) = Some a
              ∧ name = remove_commas (displayName a)
              ∧ (comma_free (displayName a) → name = displayName a)).
Proof.
  unfold _get_game_achievements. split.
  - intros a Ha. rewrite get_game_achievements_loop.
    destruct (last _) as [b|] eqn:Hlast; [by eexists|].
    apply last_None in Hlast.
    assert (a ∈ filter (λ b, schema_name b = schema_name a) schema) as Hin
      by (by apply list_elem_of_filter).
    rewrite Hlast in Hin. by apply not_elem_of_nil in Hin.
  - intros k name. rewrite get_game_achievements_loop.
    destruct (last _) as [a|]; [|by rewrite lookup_empty].
    intros [= <-]. split; [apply remove_commas_comma_free|].
    exists a. split_and!; [done..|apply remove_commas_id].
Qed.

Lemma get_game_achievements_comma_free_witness :
  comma_free "Hello World"
  ∧ ∃ a, last (filter (λ a, schema_name a = "ACH_1")
                 [mkSchemaAchievement "ACH_1" "Hello, World"]) = Some a
         ∧ "Hello World" = remove_commas (displayName a)
         ∧ (comma_free (displayName a) → "Hello World" = displayName a).
Proof.
  apply (proj2 (get_game_achievements_comma_free
                  [mkSchemaAchievement "ACH_1" "Hello, World"]) "ACH_1").
  by vm_compute.
Defined.

Lemma add_main_achievements_filter (common mains : list string) :
  NoDup mains →
  add_main_achievements common mains
  = common ++ filter (λ m, m ∉ common) mains.
Proof.
  unfold add_main_achievements. intros Hnd. revert common.
  induction Hnd as [|m mains Hm _ IH]; intros common; simpl.
  { by rewrite app_nil_r. }
  rewrite filter_cons. case_bool_decide as Hin; simpl.
  - rewrite decide_False by tauto. apply IH.
  - rewrite decide_True by done. rewrite IH, <- app_assoc. simpl.
    do 2 f_equal. apply filter_ext_iff. intros m' Hm'.
    rewrite elem_of_app, list_elem_of_singleton.
    split; [tauto|]. intros Hn [Hc| ->]; [done|]. done.
Qed.

Lemma take_common_returns (achievements : gmap string string)
    (percentages : list AchievementPercentage) (count : nat)
    (common out : list string) :
  count < 15 →
  take_common achievements count common percentages = Ok out →
  ∃ api, out = common ++ api
    ∧ count + length api ≤ 15
    ∧ Forall2 (λ name a, achievements !! percentage_name a = Some name)
        api (take (length api) percentages)
    ∧ Forall (λ a, (20 <= percent a)%Q)
        (take (length api - 1) percentages)
    ∧ (length api = length percentages
       ∨ count + length api = 15
       ∨ ∃ a, 0 < length api
              ∧ percentages !! (length api - 1) = Some a
              ∧ (percent a < 20)%Q).
Proof.
  revert count common.
  induction percentages as [|a rest IH]; intros count common Hcount Hret.
  { injection Hret as <-. exists []. rewrite app_nil_r.
    split_and!; [done|simpl; lia|constructor|constructor|by left]. }
  cbn [take_common] in Hret. unfold getitem in Hret.
  destruct (achievements !! percentage_name a) as [name|] eqn:Hname;
    [|done].
  cbn [bind] in Hret.
  destruct (15 <=? count + 1) eqn:Hfull.
  - injection Hret as <-. apply Nat.leb_le in Hfull. exists [name].
    split_and!; [done|simpl; lia|by repeat constructor|constructor|].
    right; left. simpl. lia.
  - apply Nat.leb_gt in Hfull. cbn [orb] in Hret.
    destruct (Qlt_le_dec (percent a) 20) as [Hrare|Hcommon].
    + injection Hret as <-. exists [name].
      split_and!; [done|simpl; lia|by repeat constructor|constructor|].
      right; right. exists a. simpl. split_and!; [lia|done..].
    + apply IH in Hret as (api & -> & Hlen & Hnames & Hpercent & Hstop);
        [|lia].
      exists (name :: api). rewrite <- app_assoc.
      split_and!; [done|simpl; lia|by constructor| |].
      * destruct api as [|n api]; [constructor|]. simpl in *.
        rewrite Nat.sub_0_r in Hpercent. by constructor.
      * destruct Hstop as [Hstop|[Hstop|(b & Hpos & Hb & Hrare)]].
        -- left. simpl. lia.
        -- right; left. simpl. lia.
        -- right; right. exists b. destruct api as [|n api];
             simpl in *; [lia|].
           rewrite Nat.sub_0_r in *. split_and!; [lia|done..].
Qed.

Lemma take_common_raises (achievements : gmap string string)
    (percentages : list AchievementPercentage) (count : nat)
    (common : list string) (e : exn) :
  take_common achievements count common percentages = Raise e →
  e = KeyError
  ∧ ∃ a, a ∈ percentages ∧ achievements !! percentage_name a = None.
Proof.
  revert count common.
  induction percentages as [|a rest IH]; intros count common; [done|].
  cbn [take_common]. unfold getitem.
  destruct (achievements !! percentage_name a) as [name|] eqn:Hname.
  - cbn [bind]. destruct (_ || _); [done|].
    intros (-> & b & Hb & Hnone)%IH. split; [done|].
    exists b. split; [by right|done].
  - cbn [bind]. intros [= <-]. split; [done|]. exists a.
    split; [left|done].
Qed.

Lemma take_common_total (achievements : gmap string string)
    (percentages : list AchievementPercentage) (count : nat)
    (common : list string) :
  Forall (λ a, is_Some (achievements !! percentage_name a)) percentages →
  ∃ out, take_common achievements count common percentages = Ok out.
Proof.
  intros Hall. revert count common.
  induction Hall as [|a rest [name Hname] _ IH]; intros count common;
    [by eexists|].
  cbn [take_common]. unfold getitem. rewrite Hname. cbn [bind].
  destruct (_ || _); [by eexists|apply IH].
Qed.

(** X21: when [_get_common_achievements], called with an empty list and
    an [ok] response, returns, the list it leaves starts with the display
    names of the first achievements of the response, at most fifteen and
    through the first whose percentage is below 20, and ends with the
    main achievements of the game that are not among those, in their
    order.  So every main achievement is in the list, and the list has
    at most fifteen entries more than there are main achievements. *)
Theorem get_common_achievements_spec (game : Game)
    (achievements : gmap string string)
    (percentages : list AchievementPercentage) (common : list string) :
  _get_common_achievements game achievements [] (Some percentages)
  = Ok common →
  (∃ api,
     common = api ++ filter (λ m, m ∉ api) (main_achievements game)
     ∧ length api ≤ 15
     ∧ Forall2 (λ name a, achievements !! percentage_name a = Some name)
         api (take (length api) percentages)
     ∧ Forall (λ a, (20 <= percent a)%Q)
         (take (length api - 1) percentages)
     ∧ (length api = length percentages
        ∨ length api = 15
        ∨ ∃ a, 0 < length api
               ∧ percentages !! (length api - 1) = Some a
               ∧ (percent a < 20)%Q))
  ∧ Forall (λ m, m ∈ common) (main_achievements game)
  ∧ length common ≤ 15 + length (main_achievements game).
Proof.
  unfold _get_common_achievements.
  destruct (take_common achievements 0 [] percentages) as [out|] eqn:Htake;
    [|done].
  cbn [bind]. intros [= <-].
  apply take_common_returns in Htake
    as (api & -> & Hlen & Hnames & Hpercent & Hstop); [|lia].
  simpl in *.
  rewrite add_main_achievements_filter by apply main_achievements_NoDup.
  split_and!.
  - by exists api.
  - apply Forall_forall. intros m Hm. rewrite elem_of_app.
    destruct (decide (m ∈ api)); [by left|right].
    by apply list_elem_of_filter.
  - rewrite length_app.
    pose proof (length_filter (λ m, m ∉ api) (main_achievements game)).
    lia.
Qed.

Lemma get_common_achievements_spec_witness :
  Forall (λ m, m ∈ ["Red"; "Secret"; "Green"; "Blue"; "Yellow"; "The End"])
    (main_achievements GRIS)
  ∧ length ["Red"; "Secret"; "Green"; "Blue"; "Yellow"; "The End"]
    ≤ 15 + length (main_achievements GRIS).
Proof.
  apply (proj2 (get_common_achievements_spec GRIS gris_schema
                  gris_percentages
                  ["Red"; "Secret"; "Green"; "Blue"; "Yellow"; "The End"]
                  ltac:(by vm_compute))).
Defined.

(** X22: [_get_common_achievements] returns whenever the schema has
    every achievement of the response; when it raises, the exception is
    [KeyError] and the response names an achievement that the schema
    lacks; and on a response that is not [ok] it leaves the list as it
    was, without the main achievements. *)
Theorem get_common_achievements_errors (game : Game)
    (achievements : gmap string string) (common : list string) :
  (∀ percentages,
     Forall (λ a, is_Some (achievements !! percentage_name a)) percentages →
     ∃ out,
       _get_common_achievements game achievements common (Some percentages)
       = Ok out)
  ∧ (∀ percentages e,
       _get_common_achievements game achievements common (Some percentages)
       = Raise e →
       e = KeyError
       ∧ ∃ a, a ∈ percentages ∧ achievements !! percentage_name a = None)
  ∧ _get_common_achievements game achievements common None = Ok common.
Proof.
  unfold _get_common_achievements. split_and!; [| |done].
  - intros percentages Hall.
    destruct (take_common_total achievements percentages 0 common Hall)
      as [out ->].
    by eexists.
  - intros percentages e.
    destruct (take_common achievements 0 common percentages) as [out|e']
      eqn:Htake; [done|].
    cbn [bind]. intros [= <-]. by eapply take_common_raises.
Qed.

Lemma get_common_achievements_errors_witness :
  (∃ out,
     _get_common_achievements GRIS gris_schema [] (Some gris_percentages)
     = Ok out)
  ∧ KeyError = KeyError
  ∧ ∃ a, a ∈ [mkAchievementPercentage "A9" (50 # 1)]
         ∧ gris_schema !! percentage_name a = None.
Proof.
  split.
  - apply (proj1 (get_common_achievements_errors GRIS gris_schema [])).
    apply (bool_decide_unpack _). by vm_compute.
  - apply (proj1 (proj2 (get_common_achievements_errors GRIS gris_schema
                           []))
             [mkAchievementPercentage "A9" (50 # 1)] KeyError).
    by vm_compute.
Defined.

(** ** Completion filter and truncator together *)

Lemma has_activity_elem_of (values : list string) (trace : Trace) :
  has_activity values trace = true
  ↔ ∃ ev, ev ∈ events trace ∧ concept_name ev ∈ values.
Proof.
  unfold has_activity. rewrite existsb_exists.
  split; intros (ev & Hev & Hin); exists ev.
  - apply list_elem_of_In in Hev. by apply bool_decide_eq_true in Hin.
  - apply list_elem_of_In in Hev. by rewrite bool_decide_eq_true.
Qed.

Lemma has_activity_end (game : Game) (trace : Trace) :
  has_activity [end_achievement game] trace = true
  ↔ Exists (is_end game) (events trace).
Proof.
  rewrite has_activity_elem_of, Exists_exists. unfold is_end.
  split; intros (ev & Hev & Hend); exists ev; split; try done.
  - by apply list_elem_of_singleton in Hend.
  - by apply list_elem_of_singleton.
Qed.

(** X23: as in [comparison_of_all_games], on a log whose traces have
    distinct case ids the truncator returns on the finished log of the
    completion filter, with every finished trace cut at its last end
    achievement; on the unfinished log it raises [KeyError] as soon as
    that log has a trace with an event. *)
Theorem first_playthrough_after_completion_filter (game : Game)
    (event_log : EventLog) :
  NoDup (attributes <$> event_log) →
  Forall (λ trace, is_Some (attributes trace)) event_log →
  filter_achievements_by_first_playthrough
    (filter_players_by_game_completion event_log game true) game
  = Ok (first_playthrough game
        <$> filter_players_by_game_completion event_log game true)
  ∧ ((∃ trace,
        trace ∈ filter_players_by_game_completion event_log game false
        ∧ events trace ≠ []) →
     filter_achievements_by_first_playthrough
       (filter_players_by_game_completion event_log game false) game
     = Raise KeyError).
Proof.
  intros Hnd Hids.
  unfold filter_players_by_game_completion, attributes_filter_apply.
  split.
  - apply filter_achievements_by_first_playthrough_fmap.
    + eapply sublist_NoDup; [exact Hnd|]. apply fmap_sublist, sublist_filter.
    + apply Forall_forall. intros t [Hend Ht]%list_elem_of_filter.
      rewrite Forall_forall in Hids. split; [by apply Hids|].
      by apply has_activity_end.
  - intros (t & Ht & Hne).
    set (unfinished :=
           filter (λ trace, has_activity [end_achievement game] trace = false)
             event_log) in *.
    assert (NoDup (attributes <$> unfinished)) as Hnd'.
    { eapply sublist_NoDup; [exact Hnd|]. apply fmap_sublist, sublist_filter. }
    assert (¬ Exists (is_end game) (events t)) as Hnoend.
    { apply list_elem_of_filter in Ht as [Hlacks _].
      rewrite <- has_activity_end. congruence. }
    destruct (events t) as [|ev evs] eqn:Hevs; [done|].
    assert (mkStreamEvent (attributes t) ev ∈ to_event_stream unfinished)
      as Hx.
    { apply elem_of_to_event_stream. exists t. split_and!; [done..|].
      rewrite Hevs. left. }
    unfold filter_achievements_by_first_playthrough.
    destruct (record_end_timestamps game (to_event_stream unfinished))
      as [m|e] eqn:Hm; cbn [bind].
    2:{ apply record_end_timestamps_only_KeyError in Hm. by subst. }
    rewrite (filter_raising_raises _ _ KeyError); [done| |].
    + intros x e. apply before_end_only_KeyError.
    + apply Exists_exists. eexists. split; [exact Hx|].
      apply before_end_raises. simpl. intros c Hc.
      rewrite (record_end_timestamps_lookup _ _ _ Hm).
      rewrite (last_end_cutoff game c unfinished t) by done.
      unfold cutoff. rewrite Hevs, filter_none; [done|].
      apply Forall_forall. intros ev' Hev' Hend.
      apply Hnoend, Exists_exists. by exists ev'.
Qed.

Lemma first_playthrough_after_completion_filter_witness :
  filter_achievements_by_first_playthrough
    (filter_players_by_game_completion gris_players GRIS true) GRIS
  = Ok (first_playthrough GRIS
        <$> filter_players_by_game_completion gris_players GRIS true)
  ∧ filter_achievements_by_first_playthrough
      (filter_players_by_game_completion gris_players GRIS false) GRIS
    = Raise KeyError.
Proof.
  destruct (first_playthrough_after_completion_filter GRIS gris_players)
    as [Hfinished Hunfinished].
  - apply (bool_decide_unpack _). by vm_compute.
  - apply (bool_decide_unpack _). by vm_compute.
  - split; [exact Hfinished|]. apply Hunfinished.
    exists (mkTrace (Some "p5") [mkEvent "Red" 1]).
    split; [|done]. apply (bool_decide_unpack _). by vm_compute.
Defined.

(** ** The chain of [bottleneck_analysis] *)

Lemma in_order_names (mains : list string) (c : list Event) :
  in_order mains c → concept_name <$> c = take (length c) mains.
Proof.
  intros Horder. apply list_eq. intros k. rewrite list_lookup_fmap.
  destruct (c !! k) as [ev|] eqn:Hk; simpl.
  - destruct (Horder k ev Hk) as [Hname _].
    rewrite lookup_take_lt by (by eapply lookup_lt_Some). done.
  - apply lookup_ge_None in Hk. by rewrite lookup_take_ge.
Qed.

Section main_events_only.
Context (mains : list string) (trace : Trace) (n : nat).
Hypothesis mains_NoDup : NoDup mains.
Hypothesis names : concept_name <$> events trace = take n mains.
Hypothesis n_le : n ≤ length mains.

Lemma has_main_at j m :
  mains !! j = Some m → has_activity [m] trace = true ↔ j < n.
Proof.
  intros Hj. rewrite has_activity_elem_of. split.
  - intros (ev & Hev & Heq%list_elem_of_singleton).
    assert (concept_name ev ∈ take n mains) as Hin.
    { rewrite <- names. apply list_elem_of_fmap. by exists ev. }
    apply elem_of_take in Hin as (k & Hk & Hlt). rewrite Heq in Hk.
    by rewrite (NoDup_lookup _ _ _ _ mains_NoDup Hj Hk).
  - intros Hlt.
    assert (m ∈ concept_name <$> events trace) as Hin.
    { rewrite names. apply elem_of_take. by exists j. }
    apply list_elem_of_fmap in Hin as (ev & -> & Hev).
    exists ev. split; [done|]. by apply list_elem_of_singleton.
Qed.

Lemma has_some_main : has_activity mains trace = true ↔ 0 < n.
Proof.
  rewrite has_activity_elem_of. split.
  - intros (ev & Hev & _).
    assert (concept_name ev ∈ take n mains) as Hin.
    { rewrite <- names. apply list_elem_of_fmap. by exists ev. }
    apply elem_of_take in Hin as (k & _ & Hlt). lia.
  - intros Hpos.
    destruct (lookup_lt_is_Some_2 mains 0) as [m Hm]; [lia|].
    assert (m ∈ concept_name <$> events trace) as Hin.
    { rewrite names. apply elem_of_take. by exists 0. }
    apply list_elem_of_fmap in Hin as (ev & -> & Hev).
    exists ev. split; [done|]. by eapply list_elem_of_lookup_2.
Qed.

Lemma reached_iff i :
  i + 1 < length mains → reached mains i trace ↔ i = 0 ∨ i < n.
Proof.
  intros Hi. unfold reached. rewrite Forall_forall. split.
  - intros Hall. destruct i as [|i]; [by left|right].
    destruct (lookup_lt_is_Some_2 mains (S i)) as [m Hm]; [lia|].
    apply (has_main_at (S i) m Hm), Hall, elem_of_take.
    exists i. split; [|lia]. by rewrite lookup_drop.
  - intros Hreach m (j & Hj & Hlt)%elem_of_take.
    rewrite lookup_drop in Hj. apply (has_main_at (1 + j) m Hj). lia.
Qed.

End main_events_only.

Lemma level_of_main_events (game : Game) (trace : Trace) i next :
  i + 1 < length (main_achievements game) →
  main_achievements game !! (i + 1) = Some next →
  valid_trace game trace →
  let restricted :=
    mkTrace (attributes trace)
      (considered (main_achievements game) (events trace)) in
  (has_activity [next] restricted = false
   ∧ reached (main_achievements game) i restricted)
  ∧ has_activity (main_achievements game) restricted = true
  ∧ has_activity [end_achievement game] restricted = false
  ↔ length (considered (main_achievements game) (events trace)) = i + 1.
Proof.
  intros Hi Hnext Hvalid restricted.
  set (mains := main_achievements game) in *.
  set (n := length (considered mains (events trace))).
  destruct (progress_games game) as [Hnd Hlast]; [fold mains; lia|].
  fold mains in Hnd, Hlast.
  assert (concept_name <$> events restricted = take n mains) as Hnames
    by (by apply in_order_names).
  assert (n ≤ length mains) as Hn.
  { pose proof (f_equal length Hnames) as Hlen.
    rewrite length_fmap, length_take in Hlen. simpl in Hlen.
    fold n in Hlen. lia. }
  rewrite last_lookup in Hlast.
  pose proof (has_main_at mains restricted n Hnd Hnames _ _ Hnext) as Hn1.
  pose proof (has_main_at mains restricted n Hnd Hnames _ _ Hlast) as Hn2.
  pose proof (has_some_main mains restricted n Hnames Hn) as Hn3.
  pose proof (reached_iff mains restricted n Hnd Hnames Hn i Hi) as Hn4.
  destruct (has_activity [next] restricted),
    (has_activity [end_achievement game] restricted),
    (has_activity mains restricted);
    rewrite ?Hn4; split; intros; split_and?; try done; try lia;
    try (exfalso; intuition lia); intuition lia.
Qed.

(** X24: whenever the chain of [bottleneck_analysis] returns for a game
    with at least two main achievements, the level it records at
    position [i], under the key [main_achievements[i]], counts the traces
    of the imported log that the sequence validator keeps and that have
    exactly [i + 1] events with a main achievement: the players whose
    last main achievement is the one at index [i]. *)
Theorem bottleneck_levels_counts (game : Game) (log : EventLog)
    (reviews : dict PlayerStats) (players_level_endings : dict LevelInfo) :
  bottleneck_levels log game reviews = Ok players_level_endings →
  ∀ i, i + 1 < length (main_achievements game) →
    (∃ current level_info,
       main_achievements game !! i = Some current
       ∧ players_level_endings !! i = Some (current, level_info)
       ∧ level_num_players level_info
         = length (filter (stopped_after game i) log))
    ∧ ∀ trace, stopped_after game i trace
        ↔ valid_trace game trace
          ∧ length (considered (main_achievements game) (events trace))
            = i + 1.
Proof.
  unfold bottleneck_levels.
  destruct (filter_incorrect_traces log game) as [log1|] eqn:Hvalid;
    [|done].
  cbn [bind]. intros Hret i Hi. split.
  2:{ intros t. unfold stopped_after. by rewrite scan_valid_trace. }
  destruct (divide_levels _ _ _ _ Hret i Hi)
    as (current & next & ids & Hcur & Hnext & _ & Hple).
  eexists current, _. split_and!; [done|exact Hple|]. simpl.
  apply filter_incorrect_traces_returns in Hvalid. subst log1.
  unfold level_players, unfinished_log, filter_players_by_game_completion,
    attributes_filter_apply, filter_main_achievements,
    attributes_filter_apply_events.
  rewrite !list_filter_filter, list_filter_fmap, length_fmap.
  rewrite list_filter_filter. f_equal.
  apply filter_ext_iff. intros t _. simpl.
  assert (filter (λ ev, bool_decide
                          (concept_name ev ∈ main_achievements game) = true)
            (events t)
          = considered (main_achievements game) (events t)) as ->.
  { apply filter_ext_iff. intros ev _. by rewrite bool_decide_eq_true. }
  unfold stopped_after. split.
  - intros [Hlevel Hscan]. split; [done|].
    apply (level_of_main_events game t i next Hi Hnext).
    + by apply scan_valid_trace.
    + simpl. tauto.
  - intros [Hscan Hlen]. split; [|done].
    apply (level_of_main_events game t i next Hi Hnext) in Hlen.
    + simpl in Hlen. tauto.
    + by apply scan_valid_trace.
Qed.

Lemma bottleneck_levels_counts_witness :
  ∃ current level_info,
    main_achievements GRIS !! 0 = Some current
    ∧ [("Red", mkLevelInfo 1 2 (0, 0) []);
       ("Green", mkLevelInfo 1 2 (0, 0) []);
       ("Blue", mkLevelInfo 0 2 (0, 0) []);
       ("Yellow", mkLevelInfo 0 2 (0, 0) [])] !! 0
      = Some (current, level_info)
    ∧ level_num_players level_info
      = length (filter (stopped_after GRIS 0) gris_imported).
Proof.
  apply (bottleneck_levels_counts GRIS gris_imported []).
  - by vm_compute.
  - simpl. lia.
Defined.
